(** * Verification of the project scaffolder [src/web/p.py]

    The script walks a nested Python dict and creates, under a base
    directory, one directory per nested dict and one file per other value,
    through [pathlib.Path.mkdir(parents=True, exist_ok=True)] and
    [pathlib.Path.touch()].

    The development has three layers:
    - a file system (a tree of inodes) with the system calls the script
      reaches: [mkdir(2)], [utimensat(2)], [open(2)] with [O_CREAT|O_WRONLY],
      [stat(2)], [getcwd(2)];
    - [pathlib]'s [Path.mkdir], [Path.touch], [Path.is_dir] and [Path.cwd],
      composed from those calls the way CPython composes them;
    - the script itself: [create_structure] and [create_directory_structure]
      with the literal catalog.

    Of the access rights of the calling process, which is not privileged,
    the model has what these calls test: whether the process owns an inode,
    whether it may write it, and whether the file mode creation mask leaves
    the owner's write bit on what the process creates. The kernel's limits
    on the length of a name and of a path are not in the system calls;
    [valid_path] states them, as a hypothesis, where a property says that
    an entry is created or which error is raised. Not modelled: timestamps,
    search permission on directories, symbolic links, storage exhaustion,
    the interpreter's recursion limit, concurrent processes.

    A path is the list of its components, innermost first, so that
    [Path(base_path) / name] is [name :: base_path]; this is pathlib's join
    for a [name] that is a single ordinary component ([plain_name]), which
    is the shape of every key of the catalog ([structure_wf]). A Python
    dict has distinct keys; the type [dict] below does not enforce this, and
    [wf_dict] states it, together with the plainness of the keys, where a
    property depends on it. *)

From Stdlib Require Import String Ascii List Bool.
From Stdlib.Strings Require Import Byte.
From stdpp Require Import base option list gmap strings.

Set Warnings "-register-all".
Local Open Scope string_scope.
Local Open Scope list_scope.

(** ** File system *)

Module FS.

(** A path: components from the innermost up to the root; [[]] is [/]. *)
Definition path := list string.

(** An inode, with what the calling process may do with it: [owned] when
    the process owns it, [writable] when the process has write permission
    on it. *)
Inductive inode :=
  | File (owned writable : bool) (data : list byte)
  | Dir (owned writable : bool) (entries : gmap string inode).

(** What [stat(2)] shows of an inode: its kind, a file's contents, a
    directory's write permission; not a directory's entries. *)
Inductive attr :=
  | AFile (data : list byte)
  | ADir (writable : bool).

Definition attr_of (n : inode) : attr :=
  match n with
  | File _ _ data => AFile data
  | Dir _ w _ => ADir w
  end.

(** An inode without its entries. *)
Inductive meta :=
  | MFile (owned writable : bool) (data : list byte)
  | MDir (owned writable : bool).

Definition meta_of (n : inode) : meta :=
  match n with
  | File o w data => MFile o w data
  | Dir o w _ => MDir o w
  end.

Definition attr_of_meta (m : meta) : attr :=
  match m with
  | MFile _ _ data => AFile data
  | MDir _ w => ADir w
  end.

(** [utimensat(2)] with the current time is allowed to the owner and to
    whoever may write. *)
Definition may_touch (m : meta) : bool :=
  match m with
  | MFile o w _ => o || w
  | MDir o w => o || w
  end.

Inductive errno := ENOENT | EEXIST | ENOTDIR | EISDIR | EACCES.

#[global] Instance errno_eq_dec : EqDecision errno.
Proof. solve_decision. Defined.

(** The state: the root inode, and whether the file mode creation mask of
    the process leaves the owner's write bit ([umask_w]). *)
Record t := mk { root : inode; umask_w : bool }.

Definition with_root (fs : t) (n : inode) : t :=
  {| root := n; umask_w := umask_w fs |}.

(** Path resolution, component by component from the root. [route] is the
    path root first. *)
Fixpoint walk (n : inode) (route : list string) : errno + inode :=
  match route with
  | [] => inr n
  | name :: route' =>
      match n with
      | File _ _ _ => inl ENOTDIR
      | Dir _ _ entries =>
          match entries !! name with
          | None => inl ENOENT
          | Some child => walk child route'
          end
      end
  end.

Definition resolve (fs : t) (p : path) : errno + inode := walk (root fs) (rev p).

Definition stat (fs : t) (p : path) : errno + attr :=
  match resolve fs p with
  | inl e => inl e
  | inr n => inr (attr_of n)
  end.

(** Adding a new entry [new] at [route]: the directories on the way must
    exist, the name must be free, and the directory that receives the
    entry must be writable. *)
Fixpoint link (n : inode) (route : list string) (new : inode) : errno + inode :=
  match route with
  | [] => inl EEXIST
  | name :: route' =>
      match n with
      | File _ _ _ => inl ENOTDIR
      | Dir o w entries =>
          match route' with
          | [] =>
              match entries !! name with
              | Some _ => inl EEXIST
              | None =>
                  if w then inr (Dir o w (<[name := new]> entries))
                  else inl EACCES
              end
          | _ :: _ =>
              match entries !! name with
              | None => inl ENOENT
              | Some child =>
                  match link child route' new with
                  | inl e => inl e
                  | inr child' => inr (Dir o w (<[name := child']> entries))
                  end
              end
          end
      end
  end.

(** The entry at [p], when [p] resolves. *)
Definition lookup (fs : t) (p : path) : option attr :=
  match stat fs p with
  | inl _ => None
  | inr a => Some a
  end.

(** The same with the access rights. *)
Definition info (fs : t) (p : path) : option meta :=
  match resolve fs p with
  | inl _ => None
  | inr n => Some (meta_of n)
  end.

Definition is_dir (fs : t) (p : path) : bool :=
  match lookup fs p with
  | Some (ADir _) => true
  | _ => false
  end.

Definition is_file (fs : t) (p : path) : bool :=
  match lookup fs p with
  | Some (AFile _) => true
  | _ => false
  end.

(** [mkdir(2)] with mode [0o777]: the new directory is empty, owned by the
    process, and writable as far as the mask allows. *)
Definition mkdir (fs : t) (p : path) : errno + t :=
  match link (root fs) (rev p) (Dir true (umask_w fs) ∅) with
  | inl e => inl e
  | inr n => inr (with_root fs n)
  end.

(** [utimensat(2)] with the current time: only the timestamps change,
    and they are not part of the state. *)
Definition utime (fs : t) (p : path) : errno + t :=
  match resolve fs p with
  | inl e => inl e
  | inr n => if may_touch (meta_of n) then inr fs else inl EACCES
  end.

(** [open(2)] with [O_CREAT | O_WRONLY] and mode [0o666], and [O_EXCL]
    when [excl]; the descriptor is closed at once by the caller. An
    existing file is opened without [O_TRUNC], so it keeps its contents,
    and must be writable; a directory cannot be opened for writing; a
    missing file is created empty. *)
Definition open_creat (excl : bool) (fs : t) (p : path) : errno + t :=
  match resolve fs p with
  | inr (File _ w _) =>
      if excl then inl EEXIST else if w then inr fs else inl EACCES
  | inr (Dir _ _ _) => if excl then inl EEXIST else inl EISDIR
  | inl _ =>
      match link (root fs) (rev p) (File true (umask_w fs) []) with
      | inl e => inl e
      | inr n => inr (with_root fs n)
      end
  end.

End FS.

(** ** Exceptions and the state monad of the script *)

(** An [OSError]: its [errno] selects the Python subclass
    ([ENOENT]: [FileNotFoundError], [EEXIST]: [FileExistsError], [ENOTDIR]:
    [NotADirectoryError], [EISDIR]: [IsADirectoryError], [EACCES]:
    [PermissionError]); [filename] is the path of the failed call, when the
    call has one. *)
Record OSError := mkOSError { code : FS.errno; filename : option FS.path }.

Inductive outcome (A : Type) :=
  | Return (a : A)
  | Raise (e : OSError).
Arguments Return {A} a.
Arguments Raise {A} e.

Definition IO (A : Type) : Type := FS.t -> FS.t * outcome A.

Definition ret {A} (a : A) : IO A := fun fs => (fs, Return a).

Definition raise {A} (e : OSError) : IO A := fun fs => (fs, Raise e).

Definition bind {A B} (m : IO A) (k : A -> IO B) : IO B :=
  fun fs =>
    match m fs with
    | (fs', Return a) => k a fs'
    | (fs', Raise e) => (fs', Raise e)
    end.

(** [try: m  except OSError as e: h e] *)
Definition try_except {A} (m : IO A) (h : OSError -> IO A) : IO A :=
  fun fs =>
    match m fs with
    | (fs', Return a) => (fs', Return a)
    | (fs', Raise e) => h e fs'
    end.

Notation "x <- m ;; k" := (bind m (fun x => k))
  (at level 100, m at next level, right associativity).
Notation "m ;; k" := (bind m (fun _ => k))
  (at level 100, right associativity).

(** A system call as an action: on an error the state is as before. *)
Definition syscall (f : FS.t -> FS.path -> FS.errno + FS.t) (p : FS.path) : IO unit :=
  fun fs =>
    match f fs p with
    | inl e => (fs, Raise (mkOSError e (Some p)))
    | inr fs' => (fs', Return tt)
    end.

Definition os_mkdir : FS.path -> IO unit := syscall FS.mkdir.
Definition os_utime : FS.path -> IO unit := syscall FS.utime.
Definition os_open_close (excl : bool) : FS.path -> IO unit :=
  syscall (FS.open_creat excl).

(** [os.getcwd()]: the working directory of the process is [cwd]; the call
    fails, with no file name, when that directory is no longer there. *)
Definition os_getcwd (cwd : FS.path) : IO FS.path :=
  fun fs =>
    if FS.is_dir fs cwd then (fs, Return cwd)
    else (fs, Raise (mkOSError FS.ENOENT None)).

Definition is_FileNotFoundError (e : OSError) : bool :=
  match code e with
  | FS.ENOENT => true
  | _ => false
  end.

(** [pathlib._ignore_error]: the errors that [is_dir] turns into [False]. *)
Definition ignore_error (e : FS.errno) : bool :=
  match e with
  | FS.ENOENT | FS.ENOTDIR => true
  | _ => false
  end.

(** ** pathlib *)

(** [Path(base_path) / name] *)
Definition Path_join (base_path : FS.path) (name : string) : FS.path :=
  name :: base_path.

(** [self.parent]; the root is its own parent. *)
Definition Path_parent (p : FS.path) : FS.path := tail p.

(** [Path.cwd()] *)
Definition Path_cwd (cwd : FS.path) : IO FS.path := os_getcwd cwd.

(** [Path.is_dir(self)]: [stat], with the ignored errors read as [False]
    and any other error raised. *)
Definition Path_is_dir (p : FS.path) : IO bool :=
  fun fs =>
    match FS.stat fs p with
    | inr (FS.ADir _) => (fs, Return true)
    | inr (FS.AFile _) => (fs, Return false)
    | inl e =>
        if ignore_error e then (fs, Return false)
        else (fs, Raise (mkOSError e (Some p)))
    end.

(** The [except OSError] arm of [Path.mkdir]:
    [if not exist_ok or not self.is_dir(): raise]. *)
Definition mkdir_exists (exist_ok : bool) (p : FS.path) (e : OSError) : IO unit :=
  if negb exist_ok then raise e
  else
    d <- Path_is_dir p ;;
    if negb d then raise e else ret tt.

(** [self.mkdir(mode, parents=False, exist_ok=exist_ok)] *)
Definition Path_mkdir_single (exist_ok : bool) (p : FS.path) : IO unit :=
  try_except (os_mkdir p) (fun e =>
    if is_FileNotFoundError e then raise e
    else mkdir_exists exist_ok p e).

(** [Path.mkdir(self, mode, parents, exist_ok)]:
    [os.mkdir]; on [FileNotFoundError], with [parents], make the parent
    (with [parents=True, exist_ok=True]) and retry without [parents]; on
    another [OSError], accept an existing directory when [exist_ok]. *)
Fixpoint Path_mkdir (parents exist_ok : bool) (p : FS.path) : IO unit :=
  try_except (os_mkdir p) (fun e =>
    if is_FileNotFoundError e then
      match p with
      | [] => raise e
      | _ :: parent =>
          if negb parents then raise e
          else Path_mkdir true true parent ;; Path_mkdir_single exist_ok p
      end
    else mkdir_exists exist_ok p e).

(** [Path.touch(self, mode, exist_ok)]: with [exist_ok], first try to bump
    the modification time and return if that works; otherwise open with
    [O_CREAT | O_WRONLY] (and [O_EXCL] without [exist_ok]) and close. *)
Definition Path_touch (exist_ok : bool) (p : FS.path) : IO unit :=
  if exist_ok then
    fun fs =>
      match os_utime p fs with
      | (fs', Return _) => (fs', Return tt)
      | (fs', Raise _) => os_open_close false p fs'
      end
  else os_open_close true p.

(** ** The script *)

(** A value of the description: a nested [dict] (a directory) or anything
    else (a file; the catalog uses the empty [str]). A [dict] lists its
    items in insertion order, the order in which [.items()] yields them. *)
Inductive content :=
  | Str (s : string)
  | Dict (d : dict)
with dict :=
  | dnil
  | dcons (name : string) (value : content) (rest : dict).

Scheme content_dict_ind := Induction for content Sort Prop
  with dict_content_ind := Induction for dict Sort Prop.

Fixpoint of_items (l : list (string * content)) : dict :=
  match l with
  | [] => dnil
  | (name, value) :: l' => dcons name value (of_items l')
  end.

Definition dir_ (l : list (string * content)) : content := Dict (of_items l).

Fixpoint items (d : dict) : list (string * content) :=
  match d with
  | dnil => []
  | dcons name value rest => (name, value) :: items rest
  end.

Definition keys (d : dict) : list string := (items d).*1.

(** [create_structure(base_path, structure)], lines 151-161. *)
Fixpoint create_structure (base_path : FS.path) (structure : dict) : IO unit :=
  match structure with
  | dnil => ret tt
  | dcons name content rest =>
      let path := Path_join base_path name in
      match content with
      | Dict d =>
          Path_mkdir true true path ;;
          create_structure path d
      | Str _ =>
          Path_touch true path
      end ;;
      create_structure base_path rest
  end.

(** The catalog, lines 6-149. *)
Definition structure : dict :=
  of_items [
    ("whatsapp-web-clone", dir_ [
      ("src", dir_ [
        ("app", dir_ [
          ("(auth)", dir_ [
            ("login", dir_ [
              ("page.tsx", Str "")
            ]);
            ("register", dir_ [
              ("page.tsx", Str "")
            ]);
            ("verify", dir_ [
              ("page.tsx", Str "")
            ]);
            ("layout.tsx", Str "")
          ]);
          ("(main)", dir_ [
            ("chat", dir_ [
              ("[chatId]", dir_ [
                ("page.tsx", Str "")
              ]);
              ("page.tsx", Str "")
            ]);
            ("profile", dir_ [
              ("page.tsx", Str "")
            ]);
            ("settings", dir_ [
              ("page.tsx", Str "")
            ]);
            ("layout.tsx", Str "")
          ]);
          ("api", dir_ [
            ("upload", dir_ [
              ("route.ts", Str "")
            ])
          ]);
          ("globals.css", Str "");
          ("layout.tsx", Str "");
          ("loading.tsx", Str "");
          ("not-found.tsx", Str "");
          ("page.tsx", Str "")
        ]);
        ("components", dir_ [
          ("ui", dir_ [
            ("avatar.tsx", Str "");
            ("button.tsx", Str "");
            ("card.tsx", Str "");
            ("dialog.tsx", Str "");
            ("form.tsx", Str "");
            ("input.tsx", Str "");
            ("label.tsx", Str "");
            ("scroll-area.tsx", Str "");
            ("separator.tsx", Str "");
            ("toast.tsx", Str "");
            ("toaster.tsx", Str "");
            ("tooltip.tsx", Str "")
          ]);
          ("auth", dir_ [
            ("magic-link-form.tsx", Str "");
            ("qr-code-scanner.tsx", Str "");
            ("register-form.tsx", Str "");
            ("auth-guard.tsx", Str "")
          ]);
          ("chat", dir_ [
            ("chat-list.tsx", Str "");
            ("chat-item.tsx", Str "");
            ("chat-header.tsx", Str "");
            ("message-list.tsx", Str "");
            ("message-item.tsx", Str "");
            ("message-input.tsx", Str "");
            ("typing-indicator.tsx", Str "");
            ("message-status.tsx", Str "");
            ("new-chat-dialog.tsx", Str "")
          ]);
          ("media", dir_ [
            ("image-viewer.tsx", Str "");
            ("file-upload.tsx", Str "");
            ("voice-recorder.tsx", Str "");
            ("media-gallery.tsx", Str "")
          ]);
          ("layout", dir_ [
            ("sidebar.tsx", Str "");
            ("header.tsx", Str "");
            ("mobile-nav.tsx", Str "");
            ("search-bar.tsx", Str "")
          ]);
          ("common", dir_ [
            ("loading-spinner.tsx", Str "");
            ("error-boundary.tsx", Str "");
            ("theme-provider.tsx", Str "");
            ("socket-provider.tsx", Str "")
          ])
        ]);
        ("lib", dir_ [
          ("utils.ts", Str "");
          ("auth.ts", Str "");
          ("api.ts", Str "");
          ("socket.ts", Str "");
          ("validation.ts", Str "");
          ("constants.ts", Str "");
          ("storage.ts", Str "")
        ]);
        ("hooks", dir_ [
          ("use-auth.ts", Str "");
          ("use-socket.ts", Str "");
          ("use-chat.ts", Str "");
          ("use-messages.ts", Str "");
          ("use-toast.ts", Str "");
          ("use-media-query.ts", Str "");
          ("use-local-storage.ts", Str "")
        ]);
        ("types", dir_ [
          ("auth.ts", Str "");
          ("chat.ts", Str "");
          ("message.ts", Str "");
          ("user.ts", Str "");
          ("api.ts", Str "")
        ]);
        ("store", dir_ [
          ("auth-store.ts", Str "");
          ("chat-store.ts", Str "");
          ("message-store.ts", Str "");
          ("ui-store.ts", Str "")
        ]);
        ("config", dir_ [
          ("env.ts", Str "");
          ("api-endpoints.ts", Str "")
        ])
      ]);
      ("public", dir_ [
        ("icons", dir_ [
          ("whatsapp.svg", Str "");
          ("send.svg", Str "");
          ("attachment.svg", Str "")
        ]);
        ("images", dir_ [
          ("default-avatar.png", Str "");
          ("qr-code-placeholder.png", Str "");
          ("whatsapp-bg.jpg", Str "")
        ]);
        ("sounds", dir_ [
          ("notification.mp3", Str "");
          ("message-sent.mp3", Str "")
        ]);
        ("favicon.ico", Str "");
        ("manifest.json", Str "")
      ]);
      ("next.config.js", Str "");
      ("tailwind.config.js", Str "");
      ("tsconfig.json", Str "");
      ("components.json", Str "");
      (".env.local", Str "");
      (".env.example", Str "");
      (".gitignore", Str "");
      ("README.md", Str "");
      ("package.json", Str "")
    ])
  ].

(** [str(path)] of an absolute path. *)
Definition Path_str (p : FS.path) : string :=
  match p with
  | [] => "/"
  | _ => String.concat "" (map (String.append "/") (rev p))
  end.

(** [create_directory_structure()], lines 163-169; [cwd] is the working
    directory of the process, and the result is the line it prints. *)
Definition create_directory_structure (cwd : FS.path) : IO string :=
  here <- Path_cwd cwd ;;
  let base_dir := Path_join here "whatsapp-web-clone" in
  Path_mkdir false true base_dir ;;
  create_structure base_dir structure ;;
  ret (String.append "Project structure created successfully at: "
                     (Path_str base_dir)).

(** ** Vocabulary of the specification *)

(** A key that is one ordinary path component: not empty, not [.] or [..],
    without [/] or NUL. For such a key [Path_join] is pathlib's [/]. *)
Definition plain_char (c : ascii) : bool :=
  negb (Ascii.eqb c "/"%char) && negb (Ascii.eqb c "000"%char).

Fixpoint plain_chars (s : string) : bool :=
  match s with
  | EmptyString => true
  | String c s' => plain_char c && plain_chars s'
  end.

Definition plain_name (s : string) : bool :=
  negb (String.eqb s "") && negb (String.eqb s ".") &&
  negb (String.eqb s "..") && plain_chars s.

Fixpoint has_key (name : string) (d : dict) : bool :=
  match d with
  | dnil => false
  | dcons name' _ rest => String.eqb name name' || has_key name rest
  end.

(** A description as Python can hold it and as the model reads it: the
    keys of every dict are distinct and plain. *)
Fixpoint wf_dict (d : dict) : bool :=
  match d with
  | dnil => true
  | dcons name value rest =>
      plain_name name && negb (has_key name rest) &&
      match value with
      | Str _ => true
      | Dict d' => wf_dict d'
      end && wf_dict rest
  end.

(** Every node of the description under [base_path], with its path, in the
    order of the traversal: an entry, then what is below it, then its next
    sibling. *)
Fixpoint nodes (base_path : FS.path) (d : dict) : list (FS.path * content) :=
  match d with
  | dnil => []
  | dcons name value rest =>
      (name :: base_path, value) ::
      match value with
      | Str _ => []
      | Dict d' => nodes (name :: base_path) d'
      end ++ nodes base_path rest
  end.

(** The library calls of a traversal, one per node. *)
Inductive call :=
  | Mkdir (p : FS.path)
  | Touch (p : FS.path).

Definition call_path (c : call) : FS.path :=
  match c with
  | Mkdir p => p
  | Touch p => p
  end.

Definition call_of (node : FS.path * content) : call :=
  match node.2 with
  | Dict _ => Mkdir node.1
  | Str _ => Touch node.1
  end.

Definition calls (base_path : FS.path) (d : dict) : list call :=
  map call_of (nodes base_path d).

Definition run_call (c : call) : IO unit :=
  match c with
  | Mkdir p => Path_mkdir true true p
  | Touch p => Path_touch true p
  end.

(** Calls in sequence, stopping at the first exception. *)
Fixpoint run (cs : list call) : IO unit :=
  match cs with
  | [] => ret tt
  | c :: cs' => run_call c ;; run cs'
  end.




(** [fs'] keeps every entry of [fs] as it is. *)
Definition preserves (fs fs' : FS.t) : Prop :=
  forall (q : FS.path) (a : FS.attr),
    FS.lookup fs q = Some a -> FS.lookup fs' q = Some a.

(** The same with the access rights. *)
Definition keeps (fs fs' : FS.t) : Prop :=
  forall (q : FS.path) (m : FS.meta),
    FS.info fs q = Some m -> FS.info fs' q = Some m.



(** The error, if any, of adding an entry at [p], read off [stat]. *)
Definition create_errno (fs : FS.t) (p : FS.path) : option FS.errno :=
  match p with
  | [] => Some FS.EEXIST
  | _ :: parent =>
      match FS.stat fs parent with
      | inl e => Some e
      | inr (FS.AFile _) => Some FS.ENOTDIR
      | inr (FS.ADir w) =>
          match FS.lookup fs p with
          | Some _ => Some FS.EEXIST
          | None => if w then None else Some FS.EACCES
          end
      end
  end.

Definition errno_of {A} (r : FS.errno + A) : option FS.errno :=
  match r with
  | inl e => Some e
  | inr _ => None
  end.

(** [fs'] is [fs] with new entries only, each allowed by [new]; the mask
    of the process is the same. *)
Definition extends_by (new : FS.path -> FS.meta -> Prop) (fs fs' : FS.t) : Prop :=
  FS.umask_w fs' = FS.umask_w fs /\
  forall q : FS.path,
    FS.info fs' q = FS.info fs q \/
    (FS.info fs q = None /\
     exists m, FS.info fs' q = Some m /\ new q m).

(** What a call may create: [mkdir] a directory at its path or above it,
    [touch] an empty file at its path; both owned by the process and
    writable as far as the mask [w] allows. *)
Definition call_new (w : bool) (c : call) (q : FS.path) (m : FS.meta) : Prop :=
  match c with
  | Mkdir p => q `suffix_of` p /\ m = FS.MDir true w
  | Touch p => q = p /\ m = FS.MFile true w []
  end.

(** What a call leaves when it returns: [mkdir] a directory, [touch] an
    entry whose times the process may set. *)
Definition call_done (c : call) (fs : FS.t) : Prop :=
  match c with
  | Mkdir p => FS.is_dir fs p = true
  | Touch p => exists m, FS.info fs p = Some m /\ FS.may_touch m = true
  end.


(** ** Concrete file systems and descriptions *)

(** A directory and a file of the calling user, with all rights. *)
Definition my_dir (entries : gmap string FS.inode) : FS.inode :=
  FS.Dir true true entries.

Definition my_file (data : list byte) : FS.inode := FS.File true true data.

(** The root directory: another user's, not writable. *)
Definition root_dir (entries : gmap string FS.inode) : FS.inode :=
  FS.Dir false false entries.

(** A state under the usual mask [0o022]. *)
Definition usual (n : FS.inode) : FS.t := FS.mk n true.

(** Scenario A of the specification: [/tmp/test1] is an empty directory. *)
Definition scenario_T : dict :=
  of_items [("root", dir_ [("a", dir_ [("x.txt", Str "")]); ("b.txt", Str "")])].

Definition scenario_base : FS.path := ["test1"; "tmp"].

Definition scenario_fs : FS.t :=
  usual (root_dir {[ "tmp" := my_dir {[ "test1" := my_dir ∅ ]} ]}).

(** The same, with a directory already at [/tmp/test1/root/b.txt]. *)
Definition occupied_fs : FS.t :=
  usual (root_dir {[ "tmp" := my_dir {[ "test1" := my_dir
    {[ "root" := my_dir {[ "b.txt" := my_dir ∅ ]} ]} ]} ]}).

(** The same, with data already in [/tmp/test1/root/b.txt]. *)
Definition written_fs : FS.t :=
  usual (root_dir {[ "tmp" := my_dir {[ "test1" := my_dir
    {[ "root" := my_dir {[ "b.txt" := my_file ["h"%byte; "i"%byte] ]} ]} ]} ]}).

(** Scenario C: one empty directory. *)
Definition scenario_C_T : dict := of_items [("d", dir_ [])].

(** A description whose file value is not empty. *)
Definition seeded_T : dict := of_items [("notes.txt", Str "remember")].

(** [/srv/www] holds a directory named [index.html]. *)
Definition site_fs : FS.t :=
  usual (root_dir {[ "srv" := my_dir {[ "www" := my_dir
    {[ "index.html" := my_dir ∅ ]} ]} ]}).

Definition site_base : FS.path := ["www"; "srv"].

Definition site_T : dict := of_items [("index.html", Str "")].


(** A description that wants a directory where [written_fs] has a file. *)
Definition clash_T : dict :=
  of_items [("root", dir_ [("a", dir_ []); ("b.txt", dir_ [("c", Str "")])])].

(** [/tmp/test1/locked] is a directory without write permission. *)
Definition locked_fs : FS.t :=
  usual (root_dir {[ "tmp" := my_dir {[ "test1" := my_dir
    {[ "locked" := FS.Dir true false ∅ ]} ]} ]}).

Definition locked_T : dict :=
  of_items [("first", dir_ [("f.txt", Str "")]);
            ("locked", dir_ [("g.txt", Str "")]);
            ("last", dir_ [("h.txt", Str "")])].




(** The description with every file value replaced by the empty string. *)
Fixpoint blank (d : dict) : dict :=
  match d with
  | dnil => dnil
  | dcons name value rest =>
      dcons name
        match value with
        | Str _ => Str ""
        | Dict d' => Dict (blank d')
        end
        (blank rest)
  end.

(** The line [create_directory_structure] prints under [cwd]. *)
Definition completion_message (cwd : FS.path) : string :=
  String.append "Project structure created successfully at: "
    (Path_str (Path_join cwd "whatsapp-web-clone")).

(** ** The file system: path resolution and entry creation *)

Section Kernel.
Import FS.

Definition wmeta (n : inode) (route : list string) : errno + meta :=
  match walk n route with
  | inl e => inl e
  | inr m => inr (meta_of m)
  end.

(** An inode without entries: what [mkdir] and [open] link. *)
Definition leaf (n : inode) : Prop :=
  forall name route, exists e, walk n (name :: route) = inl e.

Lemma leaf_file o w data : leaf (File o w data).
Proof. intros name route. by exists ENOTDIR. Qed.

Lemma leaf_empty_dir o w : leaf (Dir o w ∅).
Proof. intros name route. exists ENOENT. simpl. by rewrite lookup_empty. Qed.

Lemma attr_of_meta_of n : attr_of_meta (meta_of n) = attr_of n.
Proof. by destruct n. Qed.

Lemma walk_app n r1 r2 :
  walk n (r1 ++ r2) =
  match walk n r1 with
  | inl e => inl e
  | inr m => walk m r2
  end.
Proof.
  revert n. induction r1 as [|name r1 IH]; intros n; simpl; [done|].
  destruct n as [o w data|o w entries]; [done|].
  destruct (entries !! name) as [child|]; [apply IH|done].
Qed.

(** Resolution fails only with the two errors that [is_dir] ignores. *)
Lemma walk_error n route e :
  walk n route = inl e -> e = ENOENT \/ e = ENOTDIR.
Proof.
  revert n. induction route as [|name route IH]; intros n; simpl; [done|].
  destruct n as [o w data|o w entries]; [intros [= <-]; by right|].
  destruct (entries !! name) as [child|]; [apply IH|intros [= <-]; by left].
Qed.

Lemma link_exists n route new m :
  walk n route = inr m -> link n route new = inl EEXIST.
Proof.
  revert n. induction route as [|name route IH]; intros n; simpl; [done|].
  destruct n as [o w data|o w entries]; [done|].
  destruct (entries !! name) as [child|] eqn:Hc; [|done].
  intros Hw. destruct route as [|name' route]; [done|].
  by rewrite (IH _ Hw).
Qed.

Lemma link_snoc n route name new :
  errno_of (link n (route ++ [name]) new) =
  match walk n route with
  | inl e => Some e
  | inr (File _ _ _) => Some ENOTDIR
  | inr (Dir _ w entries) =>
      match entries !! name with
      | Some _ => Some EEXIST
      | None => if w then None else Some EACCES
      end
  end.
Proof.
  revert n. induction route as [|x route IH]; intros n.
  - simpl. destruct n as [o w data|o w entries]; [done|].
    destruct (entries !! name); [done|]. by destruct w.
  - simpl. destruct n as [o w data|o w entries]; [done|].
    destruct (route ++ [name]) as [|y tl] eqn:Hr.
    { by destruct route. }
    destruct (entries !! x) as [child|]; [|done].
    rewrite <- IH. by destruct (link child (y :: tl) new).
Qed.

Lemma link_fresh n route new n' :
  link n route new = inr n' -> walk n route = inl ENOENT.
Proof.
  revert n n'. induction route as [|name route IH]; intros n n'; simpl; [done|].
  destruct n as [o w data|o w entries]; [done|].
  destruct route as [|name' route].
  - by destruct (entries !! name).
  - destruct (entries !! name) as [child|]; [|done].
    destruct (link child (name' :: route) new) as [e|child'] eqn:Hl; [done|].
    intros _. by apply (IH _ _ Hl).
Qed.

Lemma link_new n route new n' :
  link n route new = inr n' -> walk n' route = inr new.
Proof.
  revert n n'. induction route as [|name route IH]; intros n n'; simpl; [done|].
  destruct n as [o w data|o w entries]; [done|].
  destruct route as [|name' route].
  - destruct (entries !! name); [done|]. destruct w; [|done].
    intros [= <-]. simpl. by rewrite lookup_insert_eq.
  - destruct (entries !! name) as [child|]; [|done].
    destruct (link child (name' :: route) new) as [e|child'] eqn:Hl; [done|].
    intros [= <-]. cbn [walk]. rewrite lookup_insert_eq. by apply (IH _ _ Hl).
Qed.

Lemma link_frame n route new n' route' :
  link n route new = inr n' ->
  ¬ route `prefix_of` route' ->
  wmeta n' route' = wmeta n route'.
Proof.
  unfold wmeta.
  revert n n' route'. induction route as [|name route IH]; intros n n' route'; simpl; [done|].
  destruct n as [o w data|o w entries]; [done|].
  destruct route as [|name' route].
  - destruct (entries !! name) eqn:Hn; [done|]. destruct w; [|done].
    intros [= <-] Hp. destruct route' as [|x route']; [done|]. simpl.
    destruct (decide (name = x)) as [->|Hne].
    + destruct Hp. by apply prefix_cons, prefix_nil.
    + by rewrite lookup_insert_ne.
  - destruct (entries !! name) as [child|] eqn:Hn; [|done].
    destruct (link child (name' :: route) new) as [e|child'] eqn:Hl; [done|].
    intros [= <-] Hp. destruct route' as [|x route']; [done|]. cbn [walk].
    destruct (decide (name = x)) as [->|Hne].
    + rewrite lookup_insert_eq, Hn. apply (IH _ _ _ Hl).
      intros Hp'. apply Hp. by apply prefix_cons.
    + by rewrite lookup_insert_ne.
Qed.

End Kernel.

Section Syscalls.
Import FS.

Lemma lookup_stat fs p a : lookup fs p = Some a <-> stat fs p = inr a.
Proof.
  unfold lookup. destruct (stat fs p); split; intros; simplify_eq; done.
Qed.

Lemma lookup_none_stat fs p : lookup fs p = None <-> exists e, stat fs p = inl e.
Proof.
  unfold lookup. destruct (stat fs p) as [e|a]; split; try done.
  - by exists e.
  - by intros [? ?].
Qed.

Lemma lookup_info fs p : lookup fs p = attr_of_meta <$> info fs p.
Proof.
  unfold lookup, stat, info. destruct (resolve fs p) as [e|n]; [done|].
  simpl. by rewrite attr_of_meta_of.
Qed.

Lemma info_lookup fs p m :
  info fs p = Some m -> lookup fs p = Some (attr_of_meta m).
Proof. intros H. by rewrite lookup_info, H. Qed.

Lemma info_none fs p : info fs p = None <-> lookup fs p = None.
Proof. rewrite lookup_info. by destruct (info fs p). Qed.

Lemma lookup_some_info fs p a :
  lookup fs p = Some a -> exists m, info fs p = Some m /\ attr_of_meta m = a.
Proof.
  rewrite lookup_info. destruct (info fs p) as [m|]; [|done].
  intros [= <-]. by exists m.
Qed.

(** [stat] fails only with an error that [is_dir] ignores. *)
Lemma stat_error fs p e : stat fs p = inl e -> ignore_error e = true.
Proof.
  unfold stat, resolve. destruct (walk (root fs) (rev p)) as [e'|n] eqn:Hw; [|done].
  intros [= <-]. by destruct (walk_error _ _ _ Hw) as [->| ->].
Qed.

Lemma stat_cons fs name p :
  stat fs (name :: p) =
  match resolve fs p with
  | inl e => inl e
  | inr (File _ _ _) => inl ENOTDIR
  | inr (Dir _ _ entries) =>
      match entries !! name with
      | None => inl ENOENT
      | Some child => inr (attr_of child)
      end
  end.
Proof.
  unfold stat, resolve. simpl rev. rewrite walk_app.
  destruct (walk (root fs) (rev p)) as [e|[o w data|o w entries]]; simpl; try done.
  by destruct (entries !! name).
Qed.

Lemma lookup_parent fs name p a :
  lookup fs (name :: p) = Some a -> exists w, stat fs p = inr (ADir w).
Proof.
  rewrite lookup_stat, stat_cons. unfold stat.
  destruct (resolve fs p) as [e|[o w data|o w entries]]; try done.
  intros _. by exists w.
Qed.



Lemma create_errno_link fs p new :
  errno_of (link (root fs) (rev p) new) = create_errno fs p.
Proof.
  destruct p as [|name parent]; [done|].
  simpl rev. rewrite link_snoc. unfold create_errno.
  unfold lookup. rewrite stat_cons. unfold stat, resolve.
  destruct (walk (root fs) (rev parent)) as [e|[o w data|o w entries]];
    simpl; try done.
  by destruct (entries !! name).
Qed.

Lemma link_info fs p new n' :
  leaf new ->
  link (root fs) (rev p) new = inr n' ->
  info fs p = None /\
  info (with_root fs n') p = Some (meta_of new) /\
  forall q, q <> p -> info (with_root fs n') q = info fs q.
Proof.
  intros Hleaf Hl. split_and!.
  - unfold info, resolve. by rewrite (link_fresh _ _ _ _ Hl).
  - unfold info, resolve. simpl. by rewrite (link_new _ _ _ _ Hl).
  - intros q Hq. destruct (decide (rev p `prefix_of` rev q)) as [[k Hk]|Hn].
    + destruct k as [|x k].
      { rewrite app_nil_r in Hk. destruct Hq.
        by rewrite <- (rev_involutive q), Hk, rev_involutive. }
      unfold info, resolve. simpl. rewrite Hk, !walk_app.
      rewrite (link_fresh _ _ _ _ Hl), (link_new _ _ _ _ Hl).
      by destruct (Hleaf x k) as [e ->].
    + unfold info. apply (link_frame _ _ _ _ _ Hl) in Hn.
      unfold wmeta, resolve in *. simpl.
      destruct (walk n' (rev q)), (walk (root fs) (rev q)); congruence.
Qed.

Lemma mkdir_errno fs p : errno_of (mkdir fs p) = create_errno fs p.
Proof.
  rewrite <- (create_errno_link fs p (Dir true (umask_w fs) ∅)). unfold mkdir.
  by destruct (link (root fs) (rev p) (Dir true (umask_w fs) ∅)).
Qed.

Lemma mkdir_inr fs p fs' :
  mkdir fs p = inr fs' ->
  umask_w fs' = umask_w fs /\
  info fs p = None /\
  info fs' p = Some (MDir true (umask_w fs)) /\
  forall q, q <> p -> info fs' q = info fs q.
Proof.
  unfold mkdir.
  destruct (link (root fs) (rev p) (Dir true (umask_w fs) ∅)) as [e|n'] eqn:Hl;
    [done|].
  intros [= <-]. split; [done|].
  apply (link_info fs p _ n' (leaf_empty_dir _ _) Hl).
Qed.

Lemma utime_ok fs p m :
  info fs p = Some m -> may_touch m = true -> utime fs p = inr fs.
Proof.
  unfold utime, info. destruct (resolve fs p) as [e|n]; [done|].
  intros [= <-] ->. done.
Qed.

Lemma utime_none fs p : info fs p = None -> exists e, utime fs p = inl e.
Proof.
  unfold utime, info. destruct (resolve fs p) as [e|n]; [|done].
  by exists e.
Qed.

Lemma utime_denied fs p m :
  info fs p = Some m -> may_touch m = false -> utime fs p = inl EACCES.
Proof.
  unfold utime, info. destruct (resolve fs p) as [e|n]; [done|].
  intros [= <-] ->. done.
Qed.

Lemma open_creat_none fs p :
  info fs p = None ->
  open_creat false fs p =
  match link (root fs) (rev p) (File true (umask_w fs) []) with
  | inl e => inl e
  | inr n => inr (with_root fs n)
  end.
Proof.
  unfold open_creat, info. by destruct (resolve fs p).
Qed.

(** What the process may not touch, it may not open for writing. *)
Lemma open_creat_denied fs p m :
  info fs p = Some m -> may_touch m = false ->
  open_creat false fs p =
  inl match m with MFile _ _ _ => EACCES | MDir _ _ => EISDIR end.
Proof.
  unfold open_creat, info. destruct (resolve fs p) as [e|[o w data|o w entries]];
    [done|..]; intros [= <-]; simpl; [|done].
  intros [_ ->]%orb_false_iff. done.
Qed.

Lemma create_errno_exists fs p a :
  lookup fs p = Some a -> create_errno fs p = Some EEXIST.
Proof.
  destruct p as [|name parent]; [done|]. intros Hl. simpl.
  destruct (lookup_parent _ _ _ _ Hl) as [w ->]. by rewrite Hl.
Qed.

(** [ENOENT] from a creation means that the parent is missing. *)
Lemma create_errno_ENOENT fs p :
  create_errno fs p = Some ENOENT ->
  exists name parent, p = name :: parent /\ stat fs parent = inl ENOENT.
Proof.
  destruct p as [|name parent]; [done|]. simpl. intros H.
  exists name, parent. split; [done|].
  destruct (stat fs parent) as [e|[data|w]]; simplify_eq; try done.
  destruct (lookup fs (name :: parent)); [done|]. by destruct w.
Qed.



End Syscalls.

(** ** pathlib: what [mkdir] and [touch] do to the file system *)

Section Pathlib.
Import FS.

Lemma extends_by_refl new fs : extends_by new fs fs.
Proof. split; [done|]. intros q. by left. Qed.

Lemma extends_by_weaken (new new' : path -> meta -> Prop) fs fs' :
  (forall q m, new q m -> new' q m) ->
  extends_by new fs fs' -> extends_by new' fs fs'.
Proof.
  intros Hw [Hu H]. split; [done|]. intros q.
  destruct (H q) as [?|(? & m & ? & ?)]; [by left|].
  right. split; [done|]. exists m. auto.
Qed.

Lemma extends_by_trans (new1 new2 : path -> meta -> Prop) fs fs1 fs2 :
  extends_by new1 fs fs1 -> extends_by new2 fs1 fs2 ->
  extends_by (fun q m => new1 q m \/ new2 q m) fs fs2.
Proof.
  intros [Hu1 H1] [Hu2 H2]. split; [congruence|]. intros q.
  destruct (H1 q) as [E1|(N1 & m1 & E1 & ?)];
    destruct (H2 q) as [E2|(N2 & m2 & E2 & ?)].
  - left. congruence.
  - right. split; [congruence|]. exists m2. auto.
  - right. split; [done|]. exists m1. split; [congruence|auto].
  - congruence.
Qed.

Lemma extends_by_keeps new fs fs' : extends_by new fs fs' -> keeps fs fs'.
Proof.
  intros [_ H] q m Hq. destruct (H q) as [E|(N & _)]; congruence.
Qed.

Lemma keeps_preserves fs fs' : keeps fs fs' -> preserves fs fs'.
Proof.
  intros H q a (m & Hm & <-)%lookup_some_info. by apply info_lookup, H.
Qed.

Lemma extends_by_preserves new fs fs' :
  extends_by new fs fs' -> preserves fs fs'.
Proof. intros H. by eapply keeps_preserves, extends_by_keeps. Qed.

Lemma keeps_trans fs1 fs2 fs3 : keeps fs1 fs2 -> keeps fs2 fs3 -> keeps fs1 fs3.
Proof. intros H1 H2 q m Hq. by apply H2, H1. Qed.

Lemma preserves_refl fs : preserves fs fs.
Proof. by intros q a. Qed.

Lemma preserves_trans fs1 fs2 fs3 :
  preserves fs1 fs2 -> preserves fs2 fs3 -> preserves fs1 fs3.
Proof. intros H1 H2 q a Hq. by apply H2, H1. Qed.

Lemma preserves_is_dir fs fs' p :
  preserves fs fs' -> is_dir fs p = true -> is_dir fs' p = true.
Proof.
  unfold is_dir. intros H. destruct (lookup fs p) as [[data|w]|] eqn:E; try done.
  by rewrite (H _ _ E).
Qed.

Lemma is_dir_lookup fs p : is_dir fs p = true <-> exists w, lookup fs p = Some (ADir w).
Proof.
  unfold is_dir. destruct (lookup fs p) as [[data|w]|]; split;
    eauto; try done; by intros [? ?].
Qed.

Lemma info_cons fs name p :
  info fs (name :: p) =
  match resolve fs p with
  | inr (Dir _ _ entries) => meta_of <$> entries !! name
  | _ => None
  end.
Proof.
  unfold info, resolve. simpl rev. rewrite walk_app.
  destruct (walk (root fs) (rev p)) as [e|[o w data|o w entries]]; simpl; try done.
  by destruct (entries !! name).
Qed.

(** A missing path stays missing, with the same error, as long as only
    directories are added and none at the path. *)
Lemma stat_ENOENT_stable (new : path -> meta -> Prop) fs fs' p :
  extends_by new fs fs' ->
  (forall q m, new q m -> exists o w, m = MDir o w) ->
  stat fs p = inl ENOENT -> info fs' p = None -> stat fs' p = inl ENOENT.
Proof.
  intros [_ Hext] Hdirs.
  induction p as [|name q IH]; [done|].
  rewrite !stat_cons, info_cons. intros Hs Hn.
  destruct (resolve fs' q) as [e'|[o w d|o w ents]] eqn:Hr'.
  - assert (stat fs q = inl ENOENT) as Hq.
    { unfold stat. destruct (resolve fs q) as [e|n] eqn:Hr; [congruence|].
      destruct (Hext q) as [E|[E _]]; unfold info in E; rewrite Hr in E;
        [by rewrite Hr' in E|done]. }
    assert (info fs' q = None) as Hq' by (unfold info; by rewrite Hr').
    specialize (IH Hq Hq'). unfold stat in IH. rewrite Hr' in IH. congruence.
  - destruct (Hext q) as [E|(_ & m & E & Hnew)]; unfold info in E; rewrite Hr' in E.
    + destruct (resolve fs q) as [e|[o' w' d'|o' w' ents']]; simplify_eq.
    + destruct (Hdirs _ _ Hnew) as (? & ? & ->). simplify_eq.
  - by destruct (ents !! name).
Qed.

Lemma Path_is_dir_eq p fs : Path_is_dir p fs = (fs, Return (is_dir fs p)).
Proof.
  unfold Path_is_dir, is_dir, lookup. destruct (stat fs p) as [e|[data|w]] eqn:Hs;
    try done.
  by rewrite (stat_error _ _ _ Hs).
Qed.

Lemma os_mkdir_raise fs p e :
  create_errno fs p = Some e -> os_mkdir p fs = (fs, Raise (mkOSError e (Some p))).
Proof.
  rewrite <- mkdir_errno. unfold os_mkdir, syscall.
  destruct (mkdir fs p); simpl; congruence.
Qed.

Lemma os_mkdir_return fs p :
  create_errno fs p = None ->
  exists fs', os_mkdir p fs = (fs', Return tt) /\ mkdir fs p = inr fs'.
Proof.
  rewrite <- mkdir_errno. unfold os_mkdir, syscall.
  destruct (mkdir fs p) as [e|fs']; simpl; [done|]. by exists fs'.
Qed.

Lemma mkdir_extends fs p fs' :
  mkdir fs p = inr fs' ->
  extends_by (fun q m => q = p /\ m = MDir true (umask_w fs)) fs fs' /\
  is_dir fs' p = true.
Proof.
  intros (Hu & Hn & Hp & Hf)%mkdir_inr. split.
  - split; [done|]. intros q. destruct (decide (q = p)) as [->|Hq]; [|left; auto].
    right. split; [done|]. by exists (MDir true (umask_w fs)).
  - unfold is_dir. by rewrite (info_lookup _ _ _ Hp).
Qed.

Lemma Path_mkdir_unfold parents exist_ok p :
  Path_mkdir parents exist_ok p =
  try_except (os_mkdir p) (fun e =>
    if is_FileNotFoundError e then
      match p with
      | [] => raise e
      | _ :: parent =>
          if negb parents then raise e
          else Path_mkdir true true parent ;; Path_mkdir_single exist_ok p
      end
    else mkdir_exists exist_ok p e).
Proof. by destruct p. Qed.

Lemma mkdir_exists_eq p e fs :
  mkdir_exists true p e fs =
  if is_dir fs p then (fs, Return tt) else (fs, Raise e).
Proof.
  unfold mkdir_exists, bind. simpl. rewrite Path_is_dir_eq.
  by destruct (is_dir fs p).
Qed.

(** An existing directory is accepted, and nothing changes. *)
Lemma Path_mkdir_done parents p fs :
  is_dir fs p = true -> Path_mkdir parents true p fs = (fs, Return tt).
Proof.
  intros Hd. rewrite Path_mkdir_unfold. unfold try_except.
  apply is_dir_lookup in Hd as Hl. destruct Hl as [w Hl].
  rewrite (os_mkdir_raise _ _ _ (create_errno_exists _ _ _ Hl)). simpl.
  by rewrite mkdir_exists_eq, Hd.
Qed.

Lemma Path_mkdir_single_spec p fs :
  Path_mkdir_single true p fs =
  match create_errno fs p with
  | None => os_mkdir p fs
  | Some e =>
      if is_dir fs p then (fs, Return tt)
      else (fs, Raise (mkOSError e (Some p)))
  end.
Proof.
  unfold Path_mkdir_single, try_except.
  destruct (create_errno fs p) as [e|] eqn:E.
  - rewrite (os_mkdir_raise _ _ _ E). unfold is_FileNotFoundError. simpl.
    destruct e; rewrite ?mkdir_exists_eq; try done.
    apply create_errno_ENOENT in E as (name & parent & -> & Hs).
    unfold raise. destruct (is_dir fs (name :: parent)) eqn:Hd; [|done].
    apply is_dir_lookup in Hd as [w Hl].
    apply lookup_parent in Hl as [w' Hl]. congruence.
  - by destruct (os_mkdir_return _ _ E) as (fs' & -> & _).
Qed.

Lemma suffix_cons_not (name : string) (parent : list string) :
  ¬ name :: parent `suffix_of` parent.
Proof. intros H%suffix_length. simpl in H. lia. Qed.


(** [mkdir(parents=True, exist_ok=True)]: it only adds directories, at the
    path and above it; when it returns the path is a directory; when it
    raises, nothing is at the path that was not there, and it raises the
    same again. *)
Lemma Path_mkdir_spec p : forall fs fs' o,
  Path_mkdir true true p fs = (fs', o) ->
  extends_by (call_new (umask_w fs) (Mkdir p)) fs fs' /\
  match o with
  | Return _ => is_dir fs' p = true
  | Raise e =>
      info fs' p = info fs p /\ Path_mkdir true true p fs' = (fs', Raise e)
  end.
Proof.
  induction p as [|name parent IH]; intros fs fs' o Hrun;
    pose proof Hrun as Hrun0; rewrite Path_mkdir_unfold in Hrun;
    unfold try_except in Hrun; revert Hrun.
  - rewrite (os_mkdir_raise fs [] EEXIST eq_refl). cbn [is_FileNotFoundError code].
    rewrite mkdir_exists_eq. destruct (is_dir fs []) eqn:Hd;
      intros [= <- <-]; (split; [apply extends_by_refl|]); done.
  - destruct (create_errno fs (name :: parent)) as [e|] eqn:E.
    + rewrite (os_mkdir_raise _ _ _ E). unfold is_FileNotFoundError.
      cbn [code]. destruct (decide (e = ENOENT)) as [->|Hne].
      * cbn [negb]. apply create_errno_ENOENT in E as (? & ? & [= <- <-] & Hs).
        assert (info fs parent = None) as Hn.
        { apply info_none, lookup_none_stat. eauto. }
        unfold bind at 1.
        destruct (Path_mkdir true true parent fs) as [fs1 [[]|e1]] eqn:Hp;
          apply IH in Hp as [Hext Ho].
        -- assert (extends_by (call_new (umask_w fs) (Mkdir (name :: parent))) fs fs1)
             as Hext'.
           { eapply extends_by_weaken; [|done].
             intros q m [? ->]. split; [by apply suffix_cons_r|done]. }
           assert (info fs1 (name :: parent) = info fs (name :: parent)) as Hsame.
           { destruct Hext as [_ Hext].
             destruct (Hext (name :: parent)) as [?|(_ & m & _ & Hsuf & _)]; [done|].
             by destruct (suffix_cons_not _ _ Hsuf). }
           rewrite Path_mkdir_single_spec.
           destruct (create_errno fs1 (name :: parent)) as [e2|] eqn:E2.
           ++ destruct (is_dir fs1 (name :: parent)) eqn:Hd;
                intros [= <- <-]; (split; [done|]); [done|].
              split; [done|].
              rewrite Path_mkdir_unfold. unfold try_except.
              rewrite (os_mkdir_raise _ _ _ E2). unfold is_FileNotFoundError.
              cbn [code]. destruct e2; try by rewrite mkdir_exists_eq, Hd.
              apply create_errno_ENOENT in E2 as (? & ? & [= <- <-] & Hs2).
              apply is_dir_lookup in Ho as [w Hw%lookup_stat]. congruence.
           ++ destruct (os_mkdir_return _ _ E2) as (fs2 & -> & Hm).
              intros [= <- <-]. apply mkdir_extends in Hm as [Hext2 Hd2].
              split; [|done].
              eapply extends_by_weaken; [|by eapply extends_by_trans].
              intros q m [?|[-> ->]]; [done|]. split; [done|].
              by rewrite (proj1 Hext).
        -- destruct Ho as [Hsame Hagain]. intros [= <- <-].
           split; [|split].
           ++ eapply extends_by_weaken; [|done].
              intros q m [? ->]. split; [by apply suffix_cons_r|done].
           ++ destruct Hext as [_ Hext].
              destruct (Hext (name :: parent)) as [?|(_ & m & _ & Hsuf & _)]; [done|].
              by destruct (suffix_cons_not _ _ Hsuf).
           ++ assert (stat fs1 parent = inl ENOENT) as Hs1.
              { eapply stat_ENOENT_stable; [done| |done|congruence].
                intros q m [_ ->]. eauto. }
              rewrite Path_mkdir_unfold. unfold try_except.
              rewrite (os_mkdir_raise fs1 (name :: parent) ENOENT)
                by (simpl; by rewrite Hs1).
              cbn [is_FileNotFoundError code negb]. unfold bind.
              by rewrite Hagain.
      * assert (match e with ENOENT => true | _ => false end = false) as ->
          by by destruct e.
        rewrite mkdir_exists_eq.
        destruct (is_dir fs (name :: parent)) eqn:Hd;
          intros [= <- <-]; (split; [apply extends_by_refl|]); done.
    + destruct (os_mkdir_return _ _ E) as (fs1 & -> & Hm).
      intros [= <- <-]. apply mkdir_extends in Hm as [Hext Hd].
      split; [|done]. eapply extends_by_weaken; [|done].
      by intros q m [-> ->].
Qed.

End Pathlib.

Section Touch.
Import FS.

Lemma Path_touch_done p fs :
  call_done (Touch p) fs -> Path_touch true p fs = (fs, Return tt).
Proof.
  intros (m & Hm & Ht). unfold Path_touch, os_utime, syscall.
  by rewrite (utime_ok _ _ _ Hm Ht).
Qed.

Lemma Path_touch_missing p fs :
  info fs p = None ->
  Path_touch true p fs =
  match link (root fs) (rev p) (File true (umask_w fs) []) with
  | inl e => (fs, Raise (mkOSError e (Some p)))
  | inr n => (with_root fs n, Return tt)
  end.
Proof.
  intros Hn. unfold Path_touch, os_utime, syscall.
  destruct (utime_none _ _ Hn) as [e ->].
  unfold os_open_close, syscall. rewrite (open_creat_none _ _ Hn).
  by destruct (link (root fs) (rev p) (File true (umask_w fs) [])).
Qed.

(** An entry that the process neither owns nor may write: the time cannot
    be set, and the open for writing fails. *)
Lemma Path_touch_denied p fs m :
  info fs p = Some m -> may_touch m = false ->
  Path_touch true p fs =
  (fs, Raise (mkOSError
                match m with MFile _ _ _ => EACCES | MDir _ _ => EISDIR end
                (Some p))).
Proof.
  intros Hm Ht. unfold Path_touch, os_utime, syscall.
  rewrite (utime_denied _ _ _ Hm Ht).
  unfold os_open_close, syscall. by rewrite (open_creat_denied _ _ _ Hm Ht).
Qed.

Lemma Path_touch_raise p fs e :
  lookup fs p = None -> create_errno fs p = Some e ->
  Path_touch true p fs = (fs, Raise (mkOSError e (Some p))).
Proof.
  intros Hn%info_none He. rewrite (Path_touch_missing _ _ Hn).
  rewrite <- (create_errno_link fs p (File true (umask_w fs) [])) in He.
  destruct (link (root fs) (rev p) (File true (umask_w fs) []));
    simpl in He; congruence.
Qed.

Lemma Path_touch_create p fs :
  lookup fs p = None -> create_errno fs p = None ->
  exists fs', Path_touch true p fs = (fs', Return tt) /\
    umask_w fs' = umask_w fs /\
    info fs' p = Some (MFile true (umask_w fs) []) /\
    forall q, q <> p -> info fs' q = info fs q.
Proof.
  intros Hn%info_none He. rewrite (Path_touch_missing _ _ Hn).
  rewrite <- (create_errno_link fs p (File true (umask_w fs) [])) in He.
  destruct (link (root fs) (rev p) (File true (umask_w fs) [])) as [e|n'] eqn:Hl;
    [done|].
  exists (with_root fs n'). split; [done|]. split; [done|].
  by destruct (link_info _ _ _ _ (leaf_file _ _ []) Hl) as (_ & ? & ?).
Qed.

Lemma Path_touch_spec p fs fs' o :
  Path_touch true p fs = (fs', o) ->
  extends_by (call_new (umask_w fs) (Touch p)) fs fs' /\
  match o with
  | Raise _ => fs' = fs
  | Return _ => call_done (Touch p) fs'
  end.
Proof.
  destruct (info fs p) as [m|] eqn:Hi.
  - destruct (may_touch m) eqn:Ht.
    + rewrite Path_touch_done by (exists m; done). intros [= <- <-].
      split; [apply extends_by_refl|]. by exists m.
    + rewrite (Path_touch_denied _ _ _ Hi Ht). intros [= <- <-].
      split; [apply extends_by_refl|done].
  - apply info_none in Hi as Hl. destruct (create_errno fs p) as [e|] eqn:He.
    + rewrite (Path_touch_raise _ _ _ Hl He). intros [= <- <-].
      split; [apply extends_by_refl|done].
    + destruct (Path_touch_create _ _ Hl He) as (fs1 & -> & Hu & Hp & Hf).
      intros [= <- <-]. split.
      * split; [done|]. intros q.
        destruct (decide (q = p)) as [->|Hq]; [|left; auto].
        right. split; [done|]. by exists (MFile true (umask_w fs) []).
      * by exists (MFile true (umask_w fs) []).
Qed.

End Touch.

(** ** The traversal as a sequence of library calls *)

Section Calls.
Import FS.

Lemma run_call_spec c fs fs' o :
  run_call c fs = (fs', o) ->
  extends_by (call_new (umask_w fs) c) fs fs' /\
  match o with
  | Return _ => call_done c fs'
  | Raise e => run_call c fs' = (fs', Raise e)
  end.
Proof.
  destruct c as [p|p]; cbn [run_call call_done].
  - intros [Hext Ho]%Path_mkdir_spec. split; [done|].
    destruct o as [[]|e]; [done|]. by destruct Ho.
  - intros Hr. apply Path_touch_spec in Hr as Hs. destruct Hs as [Hext Ho].
    split; [done|]. destruct o as [[]|e]; [done|]. by subst fs'.
Qed.

Lemma call_done_run c fs : call_done c fs -> run_call c fs = (fs, Return tt).
Proof.
  destruct c as [p|p]; cbn [run_call call_done].
  - apply Path_mkdir_done.
  - apply Path_touch_done.
Qed.

Lemma call_done_keeps c fs fs' :
  keeps fs fs' -> call_done c fs -> call_done c fs'.
Proof.
  intros Hk. destruct c as [p|p]; cbn [call_done].
  - by apply preserves_is_dir, keeps_preserves.
  - intros (m & Hm & Ht). exists m. split; [by apply Hk|done].
Qed.

Lemma run_app cs1 cs2 fs :
  run (cs1 ++ cs2) fs = (run cs1 ;; run cs2) fs.
Proof.
  revert fs. induction cs1 as [|c cs1 IH]; intros fs; [done|].
  simpl. unfold bind.
  destruct (run_call c fs) as [fs1 [[]|e]]; [|done].
  rewrite IH. done.
Qed.

Lemma run_extends cs : forall fs fs' o,
  run cs fs = (fs', o) ->
  extends_by (fun q m => exists c, c ∈ cs /\ call_new (umask_w fs) c q m) fs fs'.
Proof.
  induction cs as [|c cs IH]; intros fs fs' o; simpl.
  - intros [= <- <-]. apply extends_by_refl.
  - unfold bind. destruct (run_call c fs) as [fs1 [[]|e]] eqn:Hc;
      apply run_call_spec in Hc as [Hext Ho].
    + intros Hr%IH. rewrite (proj1 Hext) in Hr.
      eapply extends_by_weaken; [|by eapply extends_by_trans].
      intros q m [?|(c' & ? & ?)].
      * exists c. split; [left|done].
      * exists c'. split; [by right|done].
    + intros [= <- <-]. eapply extends_by_weaken; [|done].
      intros q m ?. exists c. split; [left|done].
Qed.

Lemma run_keeps cs fs fs' o : run cs fs = (fs', o) -> keeps fs fs'.
Proof. intros H%run_extends. by eapply extends_by_keeps. Qed.

Lemma run_preserves cs fs fs' o : run cs fs = (fs', o) -> preserves fs fs'.
Proof. intros H%run_keeps. by apply keeps_preserves. Qed.

Lemma run_done cs : forall fs fs',
  run cs fs = (fs', Return tt) -> forall c, c ∈ cs -> call_done c fs'.
Proof.
  induction cs as [|c cs IH]; intros fs fs'; simpl.
  - intros _ c Hc. by apply elem_of_nil in Hc.
  - unfold bind. destruct (run_call c fs) as [fs1 [[]|e]] eqn:Hc; [|done].
    intros Hr c' [->|Hin]%elem_of_cons.
    + apply run_call_spec in Hc as [_ Hd].
      eapply call_done_keeps; [|done]. by eapply run_keeps.
    + by eapply IH.
Qed.

(** A run stops at its first failing call. *)
Lemma run_raise cs : forall fs fs' e,
  run cs fs = (fs', Raise e) ->
  exists pre c post fs1, cs = pre ++ c :: post /\
    run pre fs = (fs1, Return tt) /\
    run_call c fs1 = (fs', Raise e).
Proof.
  induction cs as [|c cs IH]; intros fs fs' e; simpl; [done|].
  unfold bind. destruct (run_call c fs) as [fs1 [[]|e1]] eqn:Hc.
  - intros (pre & c' & post & fs2 & -> & Hpre & Hc')%IH.
    exists (c :: pre), c', post, fs2. split; [done|]. split; [|done].
    simpl. unfold bind. by rewrite Hc.
  - intros [= <- <-]. by exists [], c, cs, fs.
Qed.

(** Conversely, a failing call after calls that returned makes the run
    raise what the call raised, in the state the call left. *)
Lemma run_stops pre c post fs fs1 fs2 e :
  run pre fs = (fs1, Return tt) ->
  run_call c fs1 = (fs2, Raise e) ->
  run (pre ++ c :: post) fs = (fs2, Raise e).
Proof.
  intros Hpre Hc. rewrite run_app. unfold bind. rewrite Hpre.
  simpl. unfold bind. by rewrite Hc.
Qed.

Lemma run_idem cs : forall fs fs' o,
  run cs fs = (fs', o) -> run cs fs' = (fs', o).
Proof.
  induction cs as [|c cs IH]; intros fs fs' o; simpl.
  - by intros [= <- <-].
  - unfold bind. destruct (run_call c fs) as [fs1 [[]|e]] eqn:Hc.
    + intros Hr. apply run_call_spec in Hc as [_ Hd].
      rewrite (call_done_run c fs').
      * by eapply IH.
      * eapply call_done_keeps; [|done]. by eapply run_keeps.
    + intros [= <- <-]. apply run_call_spec in Hc as [_ Hagain].
      by rewrite Hagain.
Qed.

Lemma dict_rect2 (Q : dict -> Prop) :
  Q dnil ->
  (forall name s rest, Q rest -> Q (dcons name (Str s) rest)) ->
  (forall name d rest, Q d -> Q rest -> Q (dcons name (Dict d) rest)) ->
  forall d, Q d.
Proof.
  intros Hnil Hstr Hdict.
  apply (dict_content_ind
           (fun v => match v with Str _ => True | Dict d => Q d end) Q);
    try done.
  intros name [s|d] Hv rest Hrest; auto.
Qed.

Lemma create_structure_run d : forall base_path fs,
  create_structure base_path d fs = run (calls base_path d) fs.
Proof.
  induction d as [|name s rest IH|name d rest IHd IH] using dict_rect2;
    intros base_path fs; [done|..].
  - unfold calls.
    cbn [create_structure nodes map call_of fst snd run run_call app].
    unfold bind, Path_join.
    destruct (Path_touch true (name :: base_path) fs) as [fs1 [[]|e]]; [|done].
    apply IH.
  - unfold calls. cbn [create_structure nodes map call_of fst snd run run_call].
    rewrite map_app. unfold Path_join. unfold bind at 1 2 3.
    destruct (Path_mkdir true true (name :: base_path) fs) as [fs1 [[]|e]];
      [|done].
    rewrite run_app. unfold bind. fold (calls (name :: base_path) d).
    rewrite <- IHd.
    destruct (create_structure (name :: base_path) d fs1) as [fs2 [[]|e]];
      [|done].
    apply IH.
Qed.

End Calls.

(** ** The nodes of a description *)

Section Nodes.
Import FS.

Lemma call_in_calls base_path d p v :
  (p, v) ∈ nodes base_path d -> call_of (p, v) ∈ calls base_path d.
Proof. intros H. unfold calls. by apply (list_elem_of_fmap_2 call_of). Qed.

Lemma calls_inv base_path d c :
  c ∈ calls base_path d ->
  exists p v, (p, v) ∈ nodes base_path d /\ c = call_of (p, v).
Proof.
  unfold calls. intros ([p v] & -> & Hin)%list_elem_of_fmap. by exists p, v.
Qed.

Lemma suffix_cons_app_eq (x y : string) (l q : list string) :
  x :: l `suffix_of` q ++ y :: l -> x = y.
Proof.
  intros [k Hk].
  assert (q ++ y :: l = (k ++ [x]) ++ l) as Hk'.
  { by rewrite <- app_assoc. }
  replace (q ++ y :: l) with ((q ++ [y]) ++ l) in Hk' by by rewrite <- app_assoc.
  apply app_inv_tail in Hk'.
  apply app_inj_2 in Hk' as [_ [= ->]]; done.
Qed.

(** The path of a node passes through a key of the dict, just below the
    base path. *)
Lemma nodes_under d : forall base_path p v,
  (p, v) ∈ nodes base_path d ->
  exists q k, p = q ++ k :: base_path /\ has_key k d = true.
Proof.
  induction d as [|name s rest IH|name d rest IHd IH] using dict_rect2;
    intros base_path p v; simpl.
  - by intros ?%elem_of_nil.
  - intros [[= -> ->]|Hin]%elem_of_cons.
    + exists [], name. by rewrite String.eqb_refl.
    + apply IH in Hin as (q & k & -> & Hk). exists q, k.
      by rewrite Hk, orb_true_r.
  - intros [[= -> ->]|[Hin|Hin]%elem_of_app]%elem_of_cons.
    + exists [], name. by rewrite String.eqb_refl.
    + apply IHd in Hin as (q & k & -> & _). exists (q ++ [k]), name.
      by rewrite <- app_assoc, String.eqb_refl.
    + apply IH in Hin as (q & k & -> & Hk). exists q, k.
      by rewrite Hk, orb_true_r.
Qed.

Lemma nodes_longer d base_path p v :
  (p, v) ∈ nodes base_path d -> length base_path < length p.
Proof.
  intros (q & k & -> & _)%nodes_under. rewrite length_app. simpl. lia.
Qed.

Lemma nodes_key_clash d base_path name p v :
  has_key name d = false ->
  (p, v) ∈ nodes base_path d ->
  ¬ name :: base_path `suffix_of` p.
Proof.
  intros Hk (q & k & -> & Hk')%nodes_under Hs.
  apply suffix_cons_app_eq in Hs as ->. congruence.
Qed.

(** In a description with distinct keys, a file node's path is the path
    of no other node and lies above no node. *)
Lemma nodes_file_alone d : forall base_path p s p' v',
  wf_dict d = true ->
  (p, Str s) ∈ nodes base_path d ->
  (p', v') ∈ nodes base_path d ->
  p `suffix_of` p' ->
  p' = p /\ v' = Str s.
Proof.
  induction d as [|name s0 rest IH|name d rest IHd IH] using dict_rect2;
    intros base_path p s p' v'; simpl.
  - by intros _ ?%elem_of_nil.
  - intros (((_ & Hfresh%negb_true_iff)%andb_true_iff & _)%andb_true_iff
            & Hwf)%andb_true_iff.
    intros [[= -> ->]|Hin]%elem_of_cons [[= -> ->]|Hin']%elem_of_cons Hs; [done|..].
    + by destruct (nodes_key_clash _ _ _ _ _ Hfresh Hin').
    + apply nodes_under in Hin as (q & k & -> & Hk).
      assert (k :: base_path `suffix_of` name :: base_path) as Hs'.
      { etrans; [|done]. by apply suffix_app_r. }
      apply (suffix_cons_app_eq k name base_path []) in Hs' as ->. congruence.
    + by eapply IH.
  - intros (((_ & Hfresh%negb_true_iff)%andb_true_iff & Hwfd)%andb_true_iff
            & Hwf)%andb_true_iff.
    intros [[= -> ?]|[Hin|Hin]%elem_of_app]%elem_of_cons
           [[= -> ->]|[Hin'|Hin']%elem_of_app]%elem_of_cons Hs.
    + apply nodes_longer in Hin. apply suffix_length in Hs. simpl in *. lia.
    + by eapply IHd.
    + destruct (nodes_key_clash _ _ _ _ _ Hfresh Hin').
      etrans; [|done].
      apply nodes_under in Hin as (q & k & -> & _).
      by apply suffix_app_r, suffix_cons_r.
    + apply nodes_under in Hin as (q & k & -> & Hk).
      assert (k :: base_path `suffix_of` name :: base_path) as Hs'.
      { etrans; [|done]. by apply suffix_app_r. }
      apply (suffix_cons_app_eq k name base_path []) in Hs' as ->. congruence.
    + apply nodes_under in Hin as (q & k & -> & Hk).
      apply nodes_under in Hin' as (q' & k' & -> & _).
      assert (k :: base_path `suffix_of` (q' ++ [k']) ++ name :: base_path) as Hs'.
      { trans (q ++ k :: base_path); [by apply suffix_app_r|].
        by rewrite <- app_assoc. }
      apply suffix_cons_app_eq in Hs' as ->. congruence.
    + by eapply IH.
Qed.

Lemma nodes_cons d base_path p v :
  (p, v) ∈ nodes base_path d -> exists name, p = name :: Path_parent p.
Proof.
  intros Hl%nodes_longer. destruct p as [|name p]; [simpl in Hl; lia|].
  by exists name.
Qed.



End Nodes.

(** ** Properties of [create_structure] *)

Section Materialize.
Import FS.

(** An extension, read without the access rights. *)
Lemma extends_by_lookup new fs fs' :
  extends_by new fs fs' ->
  forall q,
    lookup fs' q = lookup fs q \/
    (lookup fs q = None /\
     exists m, lookup fs' q = Some (attr_of_meta m) /\ new q m).
Proof.
  intros [_ H] q. destruct (H q) as [Heq|(Hn & m & Hm & Hnew)].
  - left. by rewrite !lookup_info, Heq.
  - right. split; [by apply info_none|]. exists m.
    split; [by apply info_lookup|done].
Qed.

Lemma file_node_final base_path T fs fs' o p s :
  wf_dict T = true ->
  (p, Str s) ∈ nodes base_path T ->
  create_structure base_path T fs = (fs', o) ->
  lookup fs' p = lookup fs p \/
  (lookup fs p = None /\ lookup fs' p = Some (AFile [])).
Proof.
  intros Hwf Hin. rewrite create_structure_run. intros Hr%run_extends.
  destruct (extends_by_lookup _ _ _ Hr p) as [?|(Hn & m & Hm & c & Hc & Hnew)];
    [by left|].
  right. split; [done|].
  apply calls_inv in Hc as (p' & [s'|d'] & Hin' & ->); simpl in Hnew.
  - destruct Hnew as [_ ->]. done.
  - destruct Hnew as [Hs _].
    by destruct (nodes_file_alone _ _ _ _ _ _ Hwf Hin Hin' Hs) as [_ ?].
Qed.

Lemma node_done base_path T fs fs' p v :
  create_structure base_path T fs = (fs', Return tt) ->
  (p, v) ∈ nodes base_path T ->
  call_done (call_of (p, v)) fs'.
Proof.
  rewrite create_structure_run. intros Hr Hin.
  eapply run_done; [done|]. by apply call_in_calls.
Qed.


Lemma create_structure_blank T : forall base_path fs,
  create_structure base_path (blank T) fs = create_structure base_path T fs.
Proof.
  induction T as [|name s rest IH|name d rest IHd IH] using dict_rect2;
    intros base_path fs; [done|..]; cbn [blank create_structure]; unfold bind.
  - destruct (Path_touch true (Path_join base_path name) fs) as [fs1 [[]|e]];
      [apply IH|done].
  - destruct (Path_mkdir true true (Path_join base_path name) fs)
      as [fs1 [[]|e]]; [|done].
    rewrite IHd.
    destruct (create_structure (Path_join base_path name) d fs1)
      as [fs2 [[]|e]]; [apply IH|done].
Qed.

End Materialize.

(** ** The order of the calls *)

Section Order.
Import FS.

Lemma calls_cons_str base_path name s rest :
  calls base_path (dcons name (Str s) rest) =
  Touch (name :: base_path) :: calls base_path rest.
Proof. done. Qed.

Lemma calls_cons_dict base_path name d rest :
  calls base_path (dcons name (Dict d) rest) =
  Mkdir (name :: base_path) ::
    calls (name :: base_path) d ++ calls base_path rest.
Proof. unfold calls. simpl. by rewrite map_app. Qed.

(** Before a call is made, the directory that holds its path has been
    made by this traversal, unless that directory is the base path. *)
Lemma calls_parent_first d : forall base_path i c,
  calls base_path d !! i = Some c ->
  Path_parent (call_path c) = base_path \/
  Mkdir (Path_parent (call_path c)) ∈ take i (calls base_path d).
Proof.
  induction d as [|name s rest IH|name d rest IHd IH] using dict_rect2;
    intros base_path i c.
  - done.
  - rewrite calls_cons_str. destruct i as [|i]; simpl.
    + intros [= <-]. by left.
    + intros [?|?]%IH; [by left|]. right. by apply elem_of_cons; right.
  - rewrite calls_cons_dict. destruct i as [|i]; simpl.
    + intros [= <-]. by left.
    + rewrite take_app.
      intros [Hl|[_ Hl]]%lookup_app_Some.
      * right. apply IHd in Hl as [->|Hl].
        -- apply elem_of_cons; by left.
        -- apply elem_of_cons; right. apply elem_of_app; by left.
      * apply IH in Hl as [Hl|Hl]; [by left|right].
        apply elem_of_cons; right. apply elem_of_app; by right.
Qed.

(** With the base path a directory, every call of a run finds the
    directory that holds its path. *)
Lemma call_parent_dir base_path T fs pre c post fs' :
  is_dir fs base_path = true ->
  calls base_path T = pre ++ c :: post ->
  run pre fs = (fs', Return tt) ->
  is_dir fs' (Path_parent (call_path c)) = true.
Proof.
  intros Hb Hsplit Hr.
  destruct (calls_parent_first T base_path (length pre) c) as [->|Hin].
  - rewrite Hsplit. by apply list_lookup_middle.
  - eapply preserves_is_dir; [|done]. by eapply run_preserves.
  - rewrite Hsplit, take_app_length in Hin. by apply (run_done _ _ _ Hr _ Hin).
Qed.

(** A call that fails in an existing directory changes nothing. *)
Lemma run_call_raise_same c fs fs' e :
  call_path c <> [] ->
  is_dir fs (Path_parent (call_path c)) = true ->
  run_call c fs = (fs', Raise e) -> fs' = fs.
Proof.
  destruct c as [[|name parent]|p]; cbn [run_call call_path Path_parent tail];
    try done.
  - intros _ [w Hw%lookup_stat]%is_dir_lookup.
    rewrite Path_mkdir_unfold. unfold try_except.
    destruct (create_errno fs (name :: parent)) as [e'|] eqn:He.
    + rewrite (os_mkdir_raise _ _ _ He). unfold is_FileNotFoundError.
      cbn [code]. destruct e';
        try (rewrite mkdir_exists_eq;
             by destruct (is_dir fs (name :: parent)); intros [= <-]).
      apply create_errno_ENOENT in He as (? & ? & [= <- <-] & Hs). congruence.
    + by destruct (os_mkdir_return _ _ He) as (fs1 & -> & _).
  - by intros _ _ [_ ?]%Path_touch_spec.
Qed.

End Order.

(** ** [mkdir] with [parents=True] below a missing directory *)

Section MissingParents.
Import FS.




Lemma Path_mkdir_no_parents exist_ok p fs :
  Path_mkdir false exist_ok p fs = Path_mkdir_single exist_ok p fs.
Proof.
  rewrite Path_mkdir_unfold. unfold Path_mkdir_single, try_except.
  destruct (os_mkdir p fs) as [fs' [[]|e]]; [done|].
  destruct (is_FileNotFoundError e); [|done]. by destruct p.
Qed.

Lemma Path_mkdir_single_extends p fs fs' o :
  Path_mkdir_single true p fs = (fs', o) ->
  extends_by (fun q m => q = p /\ m = MDir true (umask_w fs)) fs fs'.
Proof.
  rewrite Path_mkdir_single_spec.
  destruct (create_errno fs p) as [e|] eqn:He.
  - destruct (is_dir fs p); intros [= <- <-]; apply extends_by_refl.
  - destruct (os_mkdir_return _ _ He) as (fs1 & -> & Hm).
    intros [= <- <-]. by apply mkdir_extends in Hm as [? _].
Qed.

Lemma Path_mkdir_single_done p fs fs' :
  Path_mkdir_single true p fs = (fs', Return tt) -> is_dir fs' p = true.
Proof.
  rewrite Path_mkdir_single_spec.
  destruct (create_errno fs p) as [e|] eqn:He.
  - destruct (is_dir fs p) eqn:Hd; by intros [= <-].
  - destruct (os_mkdir_return _ _ He) as (fs1 & -> & Hm).
    intros [= <-]. by apply mkdir_extends in Hm as [_ ?].
Qed.

Lemma Path_mkdir_single_raise p fs fs' e :
  Path_mkdir_single true p fs = (fs', Raise e) -> fs' = fs.
Proof.
  rewrite Path_mkdir_single_spec.
  destruct (create_errno fs p) as [e'|] eqn:He.
  - by destruct (is_dir fs p); intros [= <-].
  - by destruct (os_mkdir_return _ _ He) as (fs1 & -> & _).
Qed.

Lemma Path_mkdir_single_again p fs :
  is_dir fs p = true -> Path_mkdir_single true p fs = (fs, Return tt).
Proof. rewrite <- Path_mkdir_no_parents. apply Path_mkdir_done. Qed.

End MissingParents.

(** ** The entry point *)

Section EntryPoint.
Import FS.

Lemma structure_root :
  exists project, structure = dcons "whatsapp-web-clone" (Dict project) dnil.
Proof. by eexists. Qed.

(** The catalog is a description with distinct plain keys. *)
Lemma structure_wf : wf_dict structure = true.
Proof. vm_compute. reflexivity. Qed.

Lemma structure_nodes base_dir p v :
  (p, v) ∈ nodes base_dir structure ->
  "whatsapp-web-clone" :: base_dir `suffix_of` p.
Proof.
  destruct structure_root as [project ->].
  intros (q & k & -> & Hk)%nodes_under. simpl in Hk.
  rewrite orb_false_r in Hk. apply String.eqb_eq in Hk as ->.
  by apply suffix_app_r.
Qed.

Lemma structure_call_new base_dir name w c q m :
  c ∈ calls base_dir structure ->
  call_new w c q m ->
  q = name :: base_dir ->
  name = "whatsapp-web-clone".
Proof.
  intros (p & v & Hin%structure_nodes & ->)%calls_inv Hnew ->.
  destruct Hin as [k ->].
  destruct v as [s|d]; simpl in Hnew; destruct Hnew as [Hs _].
  - apply (suffix_cons_app_eq _ _ base_dir k). by rewrite <- Hs.
  - apply (suffix_cons_app_eq _ _ base_dir k). done.
Qed.

Lemma entry_point_unfold cwd fs :
  create_directory_structure cwd fs =
  if is_dir fs cwd then
    match Path_mkdir_single true ("whatsapp-web-clone" :: cwd) fs with
    | (fs1, Return _) =>
        match create_structure ("whatsapp-web-clone" :: cwd) structure fs1 with
        | (fs2, Return _) => (fs2, Return (completion_message cwd))
        | (fs2, Raise e) => (fs2, Raise e)
        end
    | (fs1, Raise e) => (fs1, Raise e)
    end
  else (fs, Raise (mkOSError ENOENT None)).
Proof.
  unfold create_directory_structure, Path_cwd, os_getcwd, Path_join, bind, ret.
  destruct (is_dir fs cwd); [|done].
  by rewrite Path_mkdir_no_parents.
Qed.

Lemma entry_point_idem cwd fs fs' o :
  create_directory_structure cwd fs = (fs', o) ->
  create_directory_structure cwd fs' = (fs', o).
Proof.
  rewrite !entry_point_unfold.
  destruct (is_dir fs cwd) eqn:Hcwd;
    [|intros [= <- <-]; by rewrite Hcwd].
  destruct (Path_mkdir_single true ("whatsapp-web-clone" :: cwd) fs)
    as [fs1 [[]|e1]] eqn:Hm.
  - pose proof (extends_by_preserves _ _ _ (Path_mkdir_single_extends _ _ _ _ Hm))
      as Hp1.
    apply Path_mkdir_single_done in Hm.
    destruct (create_structure ("whatsapp-web-clone" :: cwd) structure fs1)
      as [fs2 o2] eqn:Hr.
    assert (preserves fs1 fs2) as Hp2.
    { rewrite create_structure_run in Hr. by eapply run_preserves. }
    pose proof (preserves_is_dir _ _ _ Hp2 Hm) as Hd.
    pose proof (preserves_is_dir _ _ _ Hp2 (preserves_is_dir _ _ _ Hp1 Hcwd))
      as Hcwd2.
    rewrite create_structure_run in Hr. apply run_idem in Hr.
    rewrite <- create_structure_run in Hr.
    destruct o2 as [[]|e2]; intros [= <- <-];
      by rewrite Hcwd2, (Path_mkdir_single_again _ _ Hd), Hr.
  - apply Path_mkdir_single_raise in Hm as Heq. subst fs1.
    intros [= <- <-]. by rewrite Hcwd, Hm.
Qed.


End EntryPoint.

(** ** Directories at the path of a file entry *)

Section Collisions.
Import FS.

Lemma call_path_of p v : call_path (call_of (p, v)) = p.
Proof. by destruct v. Qed.




End Collisions.

(** ** The claims of the specification *)

(** C1, as stated, fails: in Scenario A with a directory already at
    [/tmp/test1/root/b.txt], the run returns normally, and the path of the
    file node ["b.txt"] is still a directory, not a file. *)
Lemma structural_fidelity_directory_in_the_way :
  (create_structure scenario_base scenario_T occupied_fs).2 = Return tt /\
  ("b.txt" :: "root" :: scenario_base, Str "") ∈ nodes scenario_base scenario_T /\
  FS.is_file (create_structure scenario_base scenario_T occupied_fs).1
    ("b.txt" :: "root" :: scenario_base) = false /\
  FS.is_dir (create_structure scenario_base scenario_T occupied_fs).1
    ("b.txt" :: "root" :: scenario_base) = true.
Proof.
  split_and!; [by vm_compute| |by vm_compute|by vm_compute].
  by apply (list_elem_of_lookup_2 _ 3).
Qed.

(** C1 (amended): after [create_structure base_path T] returns normally on
    a description with distinct plain keys, the path of every node exists:
    as a directory for a dict, and for any other value as a file, unless a
    directory was at that path before the run, which is then still there. *)
Theorem structural_fidelity base_path T fs fs' p v :
  wf_dict T = true ->
  create_structure base_path T fs = (fs', Return tt) ->
  (p, v) ∈ nodes base_path T ->
  match v with
  | Dict _ => FS.is_dir fs' p = true
  | Str _ =>
      if FS.is_dir fs p then FS.is_dir fs' p = true
      else FS.is_file fs' p = true
  end.
Proof.
  intros Hwf Hr Hin. pose proof (node_done _ _ _ _ _ _ Hr Hin) as Hd.
  destruct v as [s|d]; [|done]. simpl in Hd. destruct Hd as (m & Hm & _).
  apply info_lookup in Hm. unfold FS.is_dir, FS.is_file.
  destruct (file_node_final _ _ _ _ _ _ _ Hwf Hin Hr) as [Heq|[Hn Hf]].
  - rewrite <- Heq, Hm. by destruct m.
  - by rewrite Hn, Hf.
Qed.

Lemma structural_fidelity_witness :
  FS.is_file (create_structure scenario_base scenario_T scenario_fs).1
    ("x.txt" :: "a" :: "root" :: scenario_base) = true.
Proof.
  apply (structural_fidelity scenario_base scenario_T scenario_fs
           (create_structure scenario_base scenario_T scenario_fs).1
           ("x.txt" :: "a" :: "root" :: scenario_base) (Str "")).
  - vm_compute. reflexivity.
  - vm_compute. reflexivity.
  - apply (list_elem_of_lookup_2 _ 2). reflexivity.
Defined.

(** C2: running [create_structure base_path T] again, in the state a first
    run left, changes nothing and ends as the first run ended; after a run
    that returned normally the second run returns normally as well. *)
Theorem idempotence base_path T fs fs' o :
  create_structure base_path T fs = (fs', o) ->
  create_structure base_path T fs' = (fs', o).
Proof. rewrite !create_structure_run. apply run_idem. Qed.

Lemma idempotence_witness :
  create_structure scenario_base scenario_T
    (create_structure scenario_base scenario_T scenario_fs).1 =
  ((create_structure scenario_base scenario_T scenario_fs).1, Return tt).
Proof.
  apply (idempotence scenario_base scenario_T scenario_fs).
  vm_compute. reflexivity.
Defined.

(** C3: whatever [create_structure] does and however it ends, a file that
    was there keeps its contents, and a file that is there afterwards and
    was not there before is empty. *)
Theorem non_destructiveness base_path T fs fs' o :
  create_structure base_path T fs = (fs', o) ->
  (forall p data,
      FS.lookup fs p = Some (FS.AFile data) ->
      FS.lookup fs' p = Some (FS.AFile data)) /\
  (forall p data,
      FS.lookup fs' p = Some (FS.AFile data) ->
      FS.lookup fs p = Some (FS.AFile data) \/
      (FS.lookup fs p = None /\ data = [])).
Proof.
  rewrite create_structure_run. intros Hr%run_extends. split.
  - intros p data. by apply (extends_by_preserves _ _ _ Hr).
  - intros p data Hp.
    destruct (extends_by_lookup _ _ _ Hr p) as [Heq|(Hn & m & Hm & c & _ & Hnew)].
    + left. congruence.
    + right. split; [done|].
      destruct c as [p'|p']; simpl in Hnew; destruct Hnew as [_ ->];
        simpl in Hm; congruence.
Qed.

Lemma non_destructiveness_witness :
  FS.lookup (create_structure scenario_base scenario_T written_fs).1
    ("b.txt" :: "root" :: scenario_base) =
  Some (FS.AFile ["h"%byte; "i"%byte]).
Proof.
  apply (proj1 (non_destructiveness scenario_base scenario_T written_fs
                  (create_structure scenario_base scenario_T written_fs).1
                  (Return tt) eq_refl)).
  vm_compute. reflexivity.
Defined.

(** C4: the traversal is the sequence [calls] of library calls, in which a
    dict's entry is followed by everything below it and only then by its
    next sibling; and, for a description with distinct plain keys, at every
    call made after the calls before it have returned, the directory that
    holds the call's path exists, provided the base path was a directory
    at the start (for a node that is not directly under the base path this
    proviso is not needed). The entry point, the only caller, starts the
    traversal after [base_dir.mkdir] has returned, when the base path is a
    directory. *)
Theorem parent_before_child :
  (forall base_path T fs,
      create_structure base_path T fs = run (calls base_path T) fs) /\
  (forall base_path name d rest,
      calls base_path (dcons name (Dict d) rest) =
      Mkdir (name :: base_path) ::
        calls (name :: base_path) d ++ calls base_path rest) /\
  (forall base_path T fs i c fs_i,
      wf_dict T = true ->
      calls base_path T !! i = Some c ->
      run (take i (calls base_path T)) fs = (fs_i, Return tt) ->
      FS.is_dir fs base_path = true \/ Path_parent (call_path c) <> base_path ->
      FS.is_dir fs_i (Path_parent (call_path c)) = true) /\
  (forall cwd fs fs1,
      Path_mkdir false true (Path_join cwd "whatsapp-web-clone") fs =
        (fs1, Return tt) ->
      FS.is_dir fs1 (Path_join cwd "whatsapp-web-clone") = true).
Proof.
  split_and!.
  - intros. apply create_structure_run.
  - apply calls_cons_dict.
  - intros base_path T fs i c fs_i _ Hc Hr Hbase.
    destruct (calls_parent_first _ _ _ _ Hc) as [Heq|Hin].
    + destruct Hbase as [Hd|]; [|done]. rewrite Heq.
      eapply preserves_is_dir; [|done]. by eapply run_preserves.
    + by apply (run_done _ _ _ Hr _ Hin).
  - intros cwd fs fs1. rewrite Path_mkdir_no_parents.
    apply Path_mkdir_single_done.
Qed.

Lemma parent_before_child_witness :
  FS.is_dir
    (run (take 2 (calls scenario_base scenario_T)) scenario_fs).1
    ("a" :: "root" :: scenario_base) = true.
Proof.
  apply (proj1 (proj2 (proj2 parent_before_child))
           scenario_base scenario_T scenario_fs
           2 (Touch ("x.txt" :: "a" :: "root" :: scenario_base))).
  - vm_compute. reflexivity.
  - vm_compute. reflexivity.
  - vm_compute. reflexivity.
  - left. vm_compute. reflexivity.
Defined.

(** C5, as stated, fails: with a directory [index.html] in [/srv/www], where
    the description wants a file, the run returns normally and changes
    nothing. *)
Lemma wrong_kind_directory_accepted :
  FS.is_dir site_fs ("index.html" :: site_base) = true /\
  ("index.html" :: site_base, Str "") ∈ nodes site_base site_T /\
  create_structure site_base site_T site_fs = (site_fs, Return tt).
Proof.
  split_and!; [by vm_compute| |by vm_compute].
  by apply (list_elem_of_lookup_2 _ 0).
Qed.

(** C5 (amended): if a file is at a path where the description has a dict,
    [create_structure] raises an [OSError], and the file is still there
    with its contents. *)
Theorem wrong_kind_collision base_path T fs p d data :
  (p, Dict d) ∈ nodes base_path T ->
  FS.lookup fs p = Some (FS.AFile data) ->
  exists fs' e,
    create_structure base_path T fs = (fs', Raise e) /\
    FS.lookup fs' p = Some (FS.AFile data).
Proof.
  intros Hin Hf.
  destruct (create_structure base_path T fs) as [fs' o] eqn:Hr.
  assert (FS.lookup fs' p = Some (FS.AFile data)) as Hf'.
  { rewrite create_structure_run in Hr. by apply (run_preserves _ _ _ _ Hr). }
  destruct o as [[]|e]; [|by exists fs', e].
  pose proof (node_done _ _ _ _ _ _ Hr Hin) as Hd. simpl in Hd.
  unfold FS.is_dir in Hd. by rewrite Hf' in Hd.
Qed.

Lemma wrong_kind_collision_witness :
  exists fs' e,
    create_structure scenario_base clash_T written_fs = (fs', Raise e) /\
    FS.lookup fs' ("b.txt" :: "root" :: scenario_base) =
    Some (FS.AFile ["h"%byte; "i"%byte]).
Proof.
  apply (wrong_kind_collision scenario_base clash_T written_fs
           ("b.txt" :: "root" :: scenario_base) (of_items [("c", Str "")])).
  - apply (list_elem_of_lookup_2 _ 2). reflexivity.
  - vm_compute. reflexivity.
Defined.

(** C6: a call that fails, after the calls of the nodes before it have
    returned, makes [create_structure] raise what the call raised, in the
    state the call left: nothing is caught, retried or run afterwards.
    Conversely, when [create_structure] raises, the exception is that of
    one node's call, every node before it in the traversal was processed
    without error and is on disk in the state returned, and so is
    everything that was there at the start: nothing is undone. When the
    keys are distinct plain names and the base path was a directory at the
    start, the failing call itself has changed nothing. *)
Theorem partial_failure_containment :
  (forall base_path T fs before node after fs1 fs2 e,
      nodes base_path T = before ++ node :: after ->
      run (map call_of before) fs = (fs1, Return tt) ->
      run_call (call_of node) fs1 = (fs2, Raise e) ->
      create_structure base_path T fs = (fs2, Raise e)) /\
  (forall base_path T fs fs' e,
      create_structure base_path T fs = (fs', Raise e) ->
      exists before node after fs1,
        nodes base_path T = before ++ node :: after /\
        run (map call_of before) fs = (fs1, Return tt) /\
        run_call (call_of node) fs1 = (fs', Raise e) /\
        (forall p v, (p, v) ∈ before ->
           match v with
           | Dict _ => FS.is_dir fs' p = true
           | Str _ => is_Some (FS.lookup fs' p)
           end) /\
        preserves fs fs' /\
        (wf_dict T = true -> FS.is_dir fs base_path = true -> fs' = fs1)).
Proof.
  split.
  - intros base_path T fs before node after fs1 fs2 e Hn Hpre Hc.
    rewrite create_structure_run. unfold calls. rewrite Hn, map_app.
    by eapply run_stops.
  - intros base_path T fs fs' e. rewrite create_structure_run. intros Hr.
    pose proof (run_preserves _ _ _ _ Hr) as Hp.
    apply run_raise in Hr as (pre & c & post & fs1 & Hsplit & Hpre & Hc).
    unfold calls in Hsplit.
    apply map_eq_app in Hsplit as (before & tl & Hn & <- & Htl).
    apply map_eq_cons in Htl as (node & after & -> & <- & <-).
    exists before, node, after, fs1. split_and!; try done.
    + intros p v Hin.
      assert (call_done (call_of (p, v)) fs') as Hd.
      { eapply call_done_keeps.
        - apply run_call_spec in Hc as [Hext _]. by eapply extends_by_keeps.
        - apply (run_done _ _ _ Hpre). by apply (list_elem_of_fmap_2 call_of). }
      destruct v as [s|d]; [|done]. simpl in Hd. destruct Hd as (m & Hm & _).
      apply info_lookup in Hm. eauto.
    + intros _ Hb. eapply run_call_raise_same; [| |done].
      * destruct node as [p v]. rewrite call_path_of.
        assert ((p, v) ∈ nodes base_path T) as Hin%nodes_longer.
        { rewrite Hn. apply elem_of_app. right. left. }
        intros ->. simpl in Hin. lia.
      * eapply (call_parent_dir base_path T); [done| |done].
        unfold calls. by rewrite Hn, map_app.
Qed.

Lemma partial_failure_containment_witness :
  create_structure scenario_base locked_T locked_fs =
    ((run (map call_of
        [("first" :: scenario_base, dir_ [("f.txt", Str "")]);
         ("f.txt" :: "first" :: scenario_base, Str "");
         ("locked" :: scenario_base, dir_ [("g.txt", Str "")])]) locked_fs).1,
     Raise (mkOSError FS.EACCES (Some ("g.txt" :: "locked" :: scenario_base)))) /\
  exists before node after fs1,
    nodes scenario_base locked_T = before ++ node :: after /\
    run (map call_of before) locked_fs = (fs1, Return tt) /\
    run_call (call_of node) fs1 =
      ((create_structure scenario_base locked_T locked_fs).1,
       Raise (mkOSError FS.EACCES (Some ("g.txt" :: "locked" :: scenario_base)))) /\
    (forall p v, (p, v) ∈ before ->
       match v with
       | Dict _ =>
           FS.is_dir (create_structure scenario_base locked_T locked_fs).1 p = true
       | Str _ =>
           is_Some (FS.lookup (create_structure scenario_base locked_T locked_fs).1 p)
       end) /\
    preserves locked_fs (create_structure scenario_base locked_T locked_fs).1 /\
    (wf_dict locked_T = true ->
     FS.is_dir locked_fs scenario_base = true ->
     (create_structure scenario_base locked_T locked_fs).1 = fs1).
Proof.
  split.
  - apply (proj1 partial_failure_containment scenario_base locked_T locked_fs
             [("first" :: scenario_base, dir_ [("f.txt", Str "")]);
              ("f.txt" :: "first" :: scenario_base, Str "");
              ("locked" :: scenario_base, dir_ [("g.txt", Str "")])]
             ("g.txt" :: "locked" :: scenario_base, Str "")
             [("last" :: scenario_base, dir_ [("h.txt", Str "")]);
              ("h.txt" :: "last" :: scenario_base, Str "")]
             (run (map call_of
                [("first" :: scenario_base, dir_ [("f.txt", Str "")]);
                 ("f.txt" :: "first" :: scenario_base, Str "");
                 ("locked" :: scenario_base, dir_ [("g.txt", Str "")])])
                locked_fs).1).
    + reflexivity.
    + vm_compute. reflexivity.
    + vm_compute. reflexivity.
  - apply (proj2 partial_failure_containment scenario_base locked_T locked_fs).
    vm_compute. reflexivity.
Defined.

(** C7: the value of a file node is never written. In a description with
    distinct plain keys, where nothing was at the path of a node whose
    value is a string [s], empty or not, a run that returns normally leaves
    an empty file there, and a run that raises leaves nothing or an empty
    file there. *)
Theorem seed_content_not_written base_path T fs fs' o p s :
  wf_dict T = true ->
  (p, Str s) ∈ nodes base_path T ->
  FS.lookup fs p = None ->
  create_structure base_path T fs = (fs', o) ->
  match o with
  | Return _ => FS.lookup fs' p = Some (FS.AFile [])
  | Raise _ =>
      FS.lookup fs' p = None \/ FS.lookup fs' p = Some (FS.AFile [])
  end.
Proof.
  intros Hwf Hin Hn Hr.
  destruct (file_node_final _ _ _ _ _ _ _ Hwf Hin Hr) as [Heq|[_ Hf]].
  - destruct o as [[]|e]; [|left; congruence].
    destruct (node_done _ _ _ _ _ _ Hr Hin) as (m & Hm & _).
    apply info_lookup in Hm. simpl in Hm. congruence.
  - destruct o; auto.
Qed.

Lemma seed_content_not_written_witness :
  FS.lookup (create_structure scenario_base seeded_T scenario_fs).1
    ("notes.txt" :: scenario_base) = Some (FS.AFile []).
Proof.
  apply (seed_content_not_written scenario_base seeded_T scenario_fs
           (create_structure scenario_base seeded_T scenario_fs).1 (Return tt)
           ("notes.txt" :: scenario_base) "remember").
  - vm_compute. reflexivity.
  - apply (list_elem_of_lookup_2 _ 0). reflexivity.
  - vm_compute. reflexivity.
  - vm_compute. reflexivity.
Defined.







(** C10: the only key of the catalog is the name of the base directory.
    When [create_directory_structure] returns, the line it prints names
    [cwd/whatsapp-web-clone], every node of the catalog is on disk at or
    below [cwd/whatsapp-web-clone/whatsapp-web-clone], and directly in
    [cwd/whatsapp-web-clone] nothing but the entry [whatsapp-web-clone] was
    added. *)
Theorem doubly_nested_root cwd fs fs' msg :
  create_directory_structure cwd fs = (fs', Return msg) ->
  let base_dir := "whatsapp-web-clone" :: cwd in
  keys structure = ["whatsapp-web-clone"] /\
  msg = String.append "Project structure created successfully at: "
          (Path_str base_dir) /\
  (forall p v,
      (p, v) ∈ nodes base_dir structure ->
      "whatsapp-web-clone" :: base_dir `suffix_of` p /\
      is_Some (FS.lookup fs' p)) /\
  (forall name,
      name <> "whatsapp-web-clone" ->
      FS.lookup fs' (name :: base_dir) = FS.lookup fs (name :: base_dir)).
Proof.
  rewrite entry_point_unfold. destruct (FS.is_dir fs cwd); [|done].
  destruct (Path_mkdir_single true ("whatsapp-web-clone" :: cwd) fs)
    as [fs1 [[]|e1]] eqn:Hm; [|done].
  destruct (create_structure ("whatsapp-web-clone" :: cwd) structure fs1)
    as [fs2 [[]|e2]] eqn:Hr; [|done].
  intros [= <- <-]. split_and!; [done|done| |].
  - intros p v Hin. split; [by eapply structure_nodes|].
    pose proof (node_done _ _ _ _ _ _ Hr Hin) as Hd.
    destruct v as [s|d]; simpl in Hd.
    + destruct Hd as (m & Hm' & _). apply info_lookup in Hm'. eauto.
    + apply is_dir_lookup in Hd as [w Hw]. eauto.
  - intros name Hne.
    apply Path_mkdir_single_extends in Hm.
    rewrite create_structure_run in Hr. apply run_extends in Hr.
    destruct (extends_by_lookup _ _ _ Hr (name :: "whatsapp-web-clone" :: cwd))
      as [->|(_ & m & _ & c & Hc & Hnew)].
    + destruct (extends_by_lookup _ _ _ Hm (name :: "whatsapp-web-clone" :: cwd))
        as [->|(_ & m & _ & Heq & _)]; [done|].
      apply (f_equal length) in Heq. simpl in Heq. lia.
    + by destruct Hne; eapply structure_call_new.
Qed.

Lemma doubly_nested_root_witness :
  keys structure = ["whatsapp-web-clone"] /\
  "Project structure created successfully at: /tmp/test1/whatsapp-web-clone" =
    String.append "Project structure created successfully at: "
      (Path_str ("whatsapp-web-clone" :: scenario_base)) /\
  (forall p v,
      (p, v) ∈ nodes ("whatsapp-web-clone" :: scenario_base) structure ->
      "whatsapp-web-clone" :: "whatsapp-web-clone" :: scenario_base `suffix_of` p /\
      is_Some
        (FS.lookup (create_directory_structure scenario_base scenario_fs).1 p)) /\
  (forall name,
      name <> "whatsapp-web-clone" ->
      FS.lookup (create_directory_structure scenario_base scenario_fs).1
        (name :: "whatsapp-web-clone" :: scenario_base) =
      FS.lookup scenario_fs (name :: "whatsapp-web-clone" :: scenario_base)).
Proof.
  apply (doubly_nested_root scenario_base scenario_fs
           (create_directory_structure scenario_base scenario_fs).1
           "Project structure created successfully at: /tmp/test1/whatsapp-web-clone").
  vm_compute. reflexivity.
Defined.

(** On a fresh [/tmp/test1]: [package.json] is two levels below it, and
    not in the directory the printed line names. *)
Example doubly_nested_package_json :
  let fs' := (create_directory_structure scenario_base scenario_fs).1 in
  FS.lookup fs'
    ("package.json" :: "whatsapp-web-clone" :: "whatsapp-web-clone" :: scenario_base)
  = Some (FS.AFile []) /\
  FS.lookup fs' ("package.json" :: "whatsapp-web-clone" :: scenario_base) = None.
Proof. vm_compute. done. Qed.

(** ** The scenarios of the specification *)

(** Scenario A: the two directories and the two empty files. *)
Example scenario_A :
  let r := create_structure scenario_base scenario_T scenario_fs in
  r.2 = Return tt /\
  FS.lookup r.1 ("root" :: scenario_base) = Some (FS.ADir true) /\
  FS.lookup r.1 ("a" :: "root" :: scenario_base) = Some (FS.ADir true) /\
  FS.lookup r.1 ("x.txt" :: "a" :: "root" :: scenario_base) = Some (FS.AFile []) /\
  FS.lookup r.1 ("b.txt" :: "root" :: scenario_base) = Some (FS.AFile []).
Proof. vm_compute. done. Qed.

(** Scenario B: the second run returns normally and changes nothing. *)
Example scenario_B :
  let r := create_structure scenario_base scenario_T scenario_fs in
  create_structure scenario_base scenario_T r.1 = (r.1, Return tt).
Proof. vm_compute. done. Qed.

(** Scenario C: [d] is a directory without entries. *)
Example scenario_C :
  let r := create_structure scenario_base scenario_C_T scenario_fs in
  r.2 = Return tt /\
  FS.resolve r.1 ("d" :: scenario_base) = inr (FS.Dir true true ∅).
Proof. vm_compute. done. Qed.

(** ** Further properties of the library calls *)

Section Library.
Import FS.



End Library.

(** ** Further properties: statements *)



(** X4: [create_structure] never reads the value of a file entry: with
    every such value replaced by the empty string it does the same. *)
Theorem file_values_ignored base_path T fs :
  create_structure base_path (blank T) fs = create_structure base_path T fs.
Proof. apply create_structure_blank. Qed.







(** X8: running [create_directory_structure] again, in the state a first
    run left, changes nothing and ends as the first run ended: with the
    same printed line, or with the same exception. *)
Theorem entry_point_rerun cwd fs fs' o :
  create_directory_structure cwd fs = (fs', o) ->
  create_directory_structure cwd fs' = (fs', o).
Proof. apply entry_point_idem. Qed.

Lemma entry_point_rerun_witness :
  create_directory_structure scenario_base
    (create_directory_structure scenario_base scenario_fs).1 =
  ((create_directory_structure scenario_base scenario_fs).1,
   Return (completion_message scenario_base)).
Proof.
  apply (entry_point_rerun scenario_base scenario_fs).
  vm_compute. reflexivity.
Defined.




